(** * Kurasuta: the managed Redis pool of [src/IPC/ManagedRedisCluster.ts]

    A shallow embedding of the class [ManagedRedisCluster]: the pool
    ([Map<string, fastRedis>]), the in-use set ([Set<string>]), the pub/sub
    designation and topic list, and the methods [create], [acquire],
    [release], [run], [subscribe], [unsubscribe], [evict], [onClientError]
    and [onPubsubMessage].

    Modelling conventions.
    - Client objects live in a store ([heap]); the pool, closures and
      promise reactions hold references (indices) into it, so a write to
      [client.lastUsedTime] is seen through every alias.
    - A JS [Map] is an association list in insertion order; a JS [Set] is a
      duplicate-free list in insertion order.
    - Numbers are integers ([Z]); strings are [string].
    - What the environment decides (the clock, the random draw, the process
      id, what the driver object carries, the pending depth of each client,
      how a raw call settles) is an explicit argument.
    - What leaves the class (events emitted on the manager, raw calls given
      to the driver) is appended to [log].  [emit] is taken to return
      normally. *)

From Stdlib Require Import ZArith List String Ascii Bool Lia DecimalString.
From Stdlib Require Import Strings.Byte.
From Stdlib Require Import Decimal DecimalPos DecimalZ.
Import ListNotations.

Local Open Scope string_scope.
Local Open Scope list_scope.
Local Open Scope Z_scope.

(** ** JavaScript values that reach the pool *)

Inductive jsval : Type :=
| JUndefined
| JBool (b : bool)
| JNumber (n : Z)
| JString (s : string)
| JError (message : string)
| JBuffer (bytes : list byte)
| JObject (ref : nat).

(** Strict equality, which is also what [Set.prototype.has] uses on these
    values.  Error and Buffer objects compare by identity, which the
    embedding does not track for them: none is ever compared below. *)
Definition strict_eq (a b : jsval) : bool :=
  match a, b with
  | JUndefined, JUndefined => true
  | JBool x, JBool y => Bool.eqb x y
  | JNumber x, JNumber y => Z.eqb x y
  | JString x, JString y => String.eqb x y
  | JObject x, JObject y => Nat.eqb x y
  | _, _ => false
  end.

(** ** [Map] and [Set] *)

Module JsMap.
Definition t (V : Type) : Type := list (string * V).

Fixpoint get {V} (m : t V) (k : string) : option V :=
  match m with
  | [] => None
  | (k', v) :: m' => if String.eqb k' k then Some v else get m' k
  end.

Definition has {V} (m : t V) (k : string) : bool :=
  match get m k with Some _ => true | None => false end.

(** [set] keeps the position of a key that is already present. *)
Fixpoint set {V} (m : t V) (k : string) (v : V) : t V :=
  match m with
  | [] => [(k, v)]
  | (k', v') :: m' =>
      if String.eqb k' k then (k', v) :: m' else (k', v') :: set m' k v
  end.

Fixpoint delete {V} (m : t V) (k : string) : t V :=
  match m with
  | [] => []
  | (k', v') :: m' =>
      if String.eqb k' k then m' else (k', v') :: delete m' k
  end.

Definition values {V} (m : t V) : list V := map snd m.

Definition size {V} (m : t V) : Z := Z.of_nat (List.length m).
End JsMap.

Module JsSet.
Definition t : Type := list jsval.

Definition has (s : t) (x : jsval) : bool := existsb (strict_eq x) s.

Definition add (s : t) (x : jsval) : t := if has s x then s else s ++ [x].

Definition delete (s : t) (x : jsval) : t :=
  filter (fun y => negb (strict_eq x y)) s.
End JsSet.

(** ** The store of client objects *)

(** A [fastRedis] object as far as this class reads or writes it.  [name]
    and [lastUsedTime] are assigned by [create]; [id] is whatever the driver
    object carries under that property (the class never assigns it);
    [listeners] tells whether the listeners installed by [create] are still
    attached; [ended] whether [end()] was called. *)
Record fastRedis : Type := mkClient {
  name : string;
  lastUsedTime : Z;
  client_id : jsval;
  listeners : bool;
  ended : bool
}.

(** What the driver and the emitter are asked to do. *)
Inductive effect : Type :=
| Emit (event : string) (args : list jsval)
| EmitObject (event : string) (fields : list (string * jsval))
| RawCall (client : nat) (command : list string)
| RawCallAsync (client : nat) (command : list string).

Record ManagedRedisCluster : Type := mkCluster {
  minPool : Z;
  maxPool : Z;
  poolTTL : Z;
  pool : JsMap.t nat;
  poolUsed : JsSet.t;
  poolUsedPS : string;
  PSTopics : list string;
  heap : list fastRedis;
  log : list effect
}.

Definition with_pool (p : JsMap.t nat) (st : ManagedRedisCluster) :=
  mkCluster (minPool st) (maxPool st) (poolTTL st) p (poolUsed st)
            (poolUsedPS st) (PSTopics st) (heap st) (log st).

Definition with_poolUsed (u : JsSet.t) (st : ManagedRedisCluster) :=
  mkCluster (minPool st) (maxPool st) (poolTTL st) (pool st) u
            (poolUsedPS st) (PSTopics st) (heap st) (log st).

Definition with_poolUsedPS (s : string) (st : ManagedRedisCluster) :=
  mkCluster (minPool st) (maxPool st) (poolTTL st) (pool st) (poolUsed st)
            s (PSTopics st) (heap st) (log st).

Definition with_PSTopics (t : list string) (st : ManagedRedisCluster) :=
  mkCluster (minPool st) (maxPool st) (poolTTL st) (pool st) (poolUsed st)
            (poolUsedPS st) t (heap st) (log st).

Definition with_heap (h : list fastRedis) (st : ManagedRedisCluster) :=
  mkCluster (minPool st) (maxPool st) (poolTTL st) (pool st) (poolUsed st)
            (poolUsedPS st) (PSTopics st) h (log st).

Definition tell (e : effect) (st : ManagedRedisCluster) :=
  mkCluster (minPool st) (maxPool st) (poolTTL st) (pool st) (poolUsed st)
            (poolUsedPS st) (PSTopics st) (heap st) (log st ++ [e]).

(** A reference that points at nothing reads as this object; no reference
    handed out by [create] does. *)
Definition no_client : fastRedis := mkClient "" 0 JUndefined false false.

Definition deref (st : ManagedRedisCluster) (r : nat) : fastRedis :=
  nth r (heap st) no_client.

Fixpoint update_nth {A} (n : nat) (f : A -> A) (l : list A) : list A :=
  match l, n with
  | [], _ => []
  | x :: l', O => f x :: l'
  | x :: l', S n' => x :: update_nth n' f l'
  end.

Definition modify (r : nat) (f : fastRedis -> fastRedis)
    (st : ManagedRedisCluster) : ManagedRedisCluster :=
  with_heap (update_nth r f (heap st)) st.

Definition set_lastUsedTime (t : Z) (c : fastRedis) : fastRedis :=
  mkClient (name c) t (client_id c) (listeners c) (ended c).

Definition removeAllListeners (c : fastRedis) : fastRedis :=
  mkClient (name c) (lastUsedTime c) (client_id c) false (ended c).

Definition end_client (c : fastRedis) : fastRedis :=
  mkClient (name c) (lastUsedTime c) (client_id c) (listeners c) true.

(** ** The environment *)

(** What one call of [create] draws from its surroundings: [process.pid],
    the two readings of [Date.now()], [Math.floor(Math.random() * 4096)] and
    the [id] property of the object [new fastRedis(options)] returns. *)
Record Fresh : Type := mkFresh {
  f_pid : Z;
  f_idtime : Z;
  f_random : Z;
  f_now : Z;
  f_id : jsval
}.

(** What one operation draws: [Date.now()], the length of each client's
    [queue], and the draws of the [create] calls it makes, in order. *)
Record Env : Type := mkEnv {
  now : Z;
  queue_length : nat -> Z;
  fresh : nat -> Fresh
}.

Definition string_of_Z (z : Z) : string := NilZero.string_of_int (Z.to_int z).

(** [`${process.pid}-${Date.now()}-${Math.floor(Math.random() * 4096)}`] *)
Definition uniqueID (f : Fresh) : string :=
  string_of_Z (f_pid f) ++ "-" ++ string_of_Z (f_idtime f) ++ "-"
    ++ string_of_Z (f_random f).

(** ** Results: a call returns or throws, and either way leaves a state *)

Inductive result (A : Type) : Type :=
| Return (a : A) (st : ManagedRedisCluster)
| Throw (e : jsval) (st : ManagedRedisCluster).
Arguments Return {A} a st.
Arguments Throw {A} e st.

Definition state_of {A} (r : result A) : ManagedRedisCluster :=
  match r with Return _ st => st | Throw _ st => st end.

Definition AllBusy : jsval := JError "All clients are buzy, come back later".
Definition TypeError : jsval := JError "TypeError".

(** ** Pool manager *)

Definition create (f : Fresh) (st : ManagedRedisCluster)
    : string * ManagedRedisCluster :=
  let uid := uniqueID f in
  let client := List.length (heap st) in
  let st1 := with_heap (heap st ++ [mkClient uid (f_now f) (f_id f) true false]) st in
  (uid, with_pool (JsMap.set (pool st1) uid client) st1).

(** [for (let i = 0; i < n; i++) this.create(this.poolOptions)], the [i]-th
    call drawing [fr i]. *)
Fixpoint create_loop (n : nat) (i : nat) (fr : nat -> Fresh)
    (st : ManagedRedisCluster) : ManagedRedisCluster :=
  match n with
  | O => st
  | S n' => create_loop n' (S i) fr (snd (create (fr i) st))
  end.

Record Options : Type := mkOptions {
  o_minPool : option Z;
  o_maxPool : option Z;
  o_ttl : option Z
}.

Definition default (d : Z) (o : option Z) : Z :=
  match o with Some z => z | None => d end.

Definition constructor (o : Options) (fr : nat -> Fresh) : ManagedRedisCluster :=
  let mn := default 1 (o_minPool o) in
  let mx := default 10 (o_maxPool o) in
  let ttl := default 600000 (o_ttl o) in
  create_loop (Z.to_nat mn) 0 fr (mkCluster mn mx ttl [] [] "" [] [] []).

(** [Array.prototype.sort] with the comparator
    [(a, b) => a.queue.length - b.queue.length]; the sort is stable. *)
Fixpoint insert_by (key : nat -> Z) (x : nat) (l : list nat) : list nat :=
  match l with
  | [] => [x]
  | y :: l' => if key x - key y <=? 0 then x :: l else y :: insert_by key x l'
  end.

Fixpoint sort_by (key : nat -> Z) (l : list nat) : list nat :=
  match l with
  | [] => []
  | x :: l' => insert_by key x (sort_by key l')
  end.

(** The filter callback of [acquire]:
    [(x) => !this.poolUsed.has(x) && x !== this.poolUsedPS], applied to the
    values of the pool, which are client objects. *)
Definition acquire_filter (st : ManagedRedisCluster) (x : nat) : bool :=
  negb (JsSet.has (poolUsed st) (JObject x))
  && negb (strict_eq (JObject x) (JString (poolUsedPS st))).

Definition clientList (e : Env) (st : ManagedRedisCluster) : list nat :=
  sort_by (queue_length e)
          (filter (acquire_filter st) (JsMap.values (pool st))).

(** [if (id)]: an absent or empty [id] takes the automatic path. *)
Definition truthy (id : option string) : option string :=
  match id with
  | Some "" => None
  | other => other
  end.

Definition acquire (id : option string) (e : Env) (st : ManagedRedisCluster)
    : result (option nat) :=
  match truthy id with
  | Some i =>
      let st1 := with_poolUsed (JsSet.add (poolUsed st) (JString i)) st in
      Return (JsMap.get (pool st1) i) st1
  | None =>
      match clientList e st with
      | [] =>
          if JsMap.size (pool st) <? maxPool st then
            let (i, st1) := create (fresh e 0%nat) st in
            let st2 := with_poolUsed (JsSet.add (poolUsed st1) (JString i)) st1 in
            Return (JsMap.get (pool st2) i) st2
          else Throw AllBusy st
      | leastBusyClient :: _ =>
          let st1 := with_poolUsed
                       (JsSet.add (poolUsed st)
                                  (client_id (deref st leastBusyClient))) st in
          Return (Some leastBusyClient) st1
      end
  end.

Definition release (client : nat) (st : ManagedRedisCluster)
    : ManagedRedisCluster :=
  with_poolUsed (JsSet.delete (poolUsed st) (JString (name (deref st client)))) st.

(** The body of the loop of [evict] for one entry of the pool. *)
Definition evict_one (currentTime : Z) (client : nat)
    (st : ManagedRedisCluster) : ManagedRedisCluster :=
  let c := deref st client in
  if (currentTime - lastUsedTime c >=? poolTTL st)
     && (JsMap.size (pool st) >? minPool st)
     && negb (String.eqb (name c) (poolUsedPS st))
  then with_pool (JsMap.delete (pool st) (name c)) (modify client end_client st)
  else st.

(** The iterator of [this.pool.values()] is live: an entry deleted before it
    is reached is not visited. *)
Fixpoint evict_loop (currentTime : Z) (entries : list (string * nat))
    (st : ManagedRedisCluster) : ManagedRedisCluster :=
  match entries with
  | [] => st
  | (k, client) :: rest =>
      evict_loop currentTime rest
        (if JsMap.has (pool st) k then evict_one currentTime client st else st)
  end.

Definition evict (e : Env) (st : ManagedRedisCluster) : ManagedRedisCluster :=
  evict_loop (now e) (pool st) st.

(** The body of [onClientError] when its first statement returns, that is
    on a manager with an ['error'] listener; without one that [emit] throws
    and nothing else runs: [handleClientError] below has both cases. *)
Definition onClientError (client : nat) (error : jsval) (e : Env)
    (st : ManagedRedisCluster) : ManagedRedisCluster :=
  let st1 := tell (Emit "error" [JString (name (deref st client)); error]) st in
  let st2 := modify client removeAllListeners st1 in
  let st3 := with_pool (JsMap.delete (pool st2) (name (deref st2 client))) st2 in
  if JsMap.size (pool st3) <? minPool st3
  then create_loop (Z.to_nat (minPool st3)) 0 (fresh e) st3
  else st3.

Definition onClientConnect (client : nat) (st : ManagedRedisCluster) :=
  tell (Emit "connect" [JString (name (deref st client))]) st.

Definition onClientReady (client : nat) (st : ManagedRedisCluster) :=
  tell (Emit "ready" [JString (name (deref st client))]) st.

Definition onClientDisconnect (client : nat) (st : ManagedRedisCluster) :=
  tell (Emit "disconnect" [JString (name (deref st client))]) st.

Definition onClientReconnect (client : nat) (n : Z) (st : ManagedRedisCluster) :=
  tell (Emit "reconnecting" [JString (name (deref st client)); JNumber n]) st.

(** ** Promises *)

Inductive settled : Type :=
| Fulfilled (value : jsval)
| Rejected (reason : jsval).

(** What a chain of [then] callbacks does to the state, and yields, once the
    raw call it hangs on has settled. *)
Definition reaction : Type :=
  settled -> ManagedRedisCluster -> settled * ManagedRedisCluster.

(** The promise [rawCallAsync] returns settles as the backend decides. *)
Definition rawCallAsync : reaction := fun o st => (o, st).

(** [p.then(f)]: [f] runs only when [p] is fulfilled; a rejection passes
    through untouched. *)
Definition then_ (p : reaction)
    (f : jsval -> ManagedRedisCluster -> jsval * ManagedRedisCluster)
    : reaction :=
  fun o st =>
    match p o st with
    | (Fulfilled x, st1) => let (y, st2) := f x st1 in (Fulfilled y, st2)
    | (Rejected r, st1) => (Rejected r, st1)
    end.

Inductive promise : Type :=
| PromiseResolve (v : jsval)
| Awaiting (k : reaction).

(** ** Command facade and pub/sub router *)

(** An element of a command: [string | Buffer]. *)
Inductive arg : Type :=
| Text (s : string)
| Binary (b : list byte).

(** The [a85-native] module. *)
Record Codec : Type := mkCodec {
  stringify : list byte -> string;
  parse : string -> list byte
}.

(** ['\u0002'] *)
Definition sentinel : string := String "002"%char EmptyString.

(** [s.slice(1)] *)
Definition slice1 (s : string) : string :=
  match s with
  | EmptyString => EmptyString
  | String _ rest => rest
  end.

Section Facade.
Variable a85 : Codec.

(** The callback [run] maps over its command. *)
Definition encode (x : arg) : string :=
  match x with
  | Binary b => sentinel ++ stringify a85 b
  | Text s => s
  end.

(** [rawData.startsWith('\u0002') ? a85.parse(rawData.slice(1)) : rawData] *)
Definition decode (rawData : string) : jsval :=
  if String.prefix sentinel rawData
  then JBuffer (parse a85 (slice1 rawData))
  else JString rawData.

Definition run (command : list arg) (e : Env) (st : ManagedRedisCluster)
    : result promise :=
  match acquire None e st with
  | Throw err st1 => Throw err st1
  | Return None st1 => Throw TypeError st1
  | Return (Some client) st1 =>
      let st2 := modify client (set_lastUsedTime (now e)) st1 in
      let st3 := tell (RawCallAsync client (map encode command)) st2 in
      Return (Awaiting (then_ rawCallAsync
                          (fun x s => (x, release client s)))) st3
  end.

Definition subscribe (topic : list string) (e : Env)
    (st : ManagedRedisCluster) : result promise :=
  match acquire None e st with
  | Throw err st1 => Throw err st1
  | Return None st1 => Throw TypeError st1
  | Return (Some client) st1 =>
      let st2 := modify client (set_lastUsedTime (now e)) st1 in
      let st3 := with_poolUsedPS (name (deref st2 client)) st2 in
      let st4 := with_PSTopics (PSTopics st3 ++ topic) st3 in
      let st5 := tell (RawCall client ("PSUBSCRIBE" :: topic)) st4 in
      Return (PromiseResolve (JBool true)) st5
  end.

(** [topic.includes(x)] *)
Definition includes (topic : list string) (x : string) : bool :=
  existsb (String.eqb x) topic.

Definition unsubscribe (topic : list string) (e : Env)
    (st : ManagedRedisCluster) : result promise :=
  match acquire None e st with
  | Throw err st1 => Throw err st1
  | Return None st1 => Throw TypeError st1
  | Return (Some client) st1 =>
      let st2 := modify client (set_lastUsedTime (now e)) st1 in
      let st3 := with_PSTopics
                   (filter (fun x => negb (includes topic x)) (PSTopics st2))
                   st2 in
      let st4 := tell (RawCallAsync client ("PUNSUBSCRIBE" :: topic)) st3 in
      if (Z.of_nat (List.length (PSTopics st3)) <? 1)
      then Return (Awaiting
                     (then_ (then_ rawCallAsync
                               (fun _ s => (JString "", with_poolUsedPS "" s)))
                            (fun _ s => (JBool true, s)))) st4
      else Return (Awaiting (then_ rawCallAsync
                               (fun _ s => (JBool true, s)))) st4
  end.

(** [message[2]], then [message.pop()]; a last element that is not a
    string has no [startsWith]. *)
Definition onPubsubMessage (client : nat) (message : list jsval)
    (st : ManagedRedisCluster) : result unit :=
  let topic := nth 2 message JUndefined in
  match last message JUndefined with
  | JString rawData =>
      Return tt (tell (EmitObject "message"
                         [("client", JObject client);
                          ("topic", topic);
                          ("data", decode rawData)]) st)
  | _ => Throw TypeError st
  end.

(** ** Operations and the states they reach *)

(** One turn of the manager.  An operation that awaits a raw call comes
    with the way that call settles, or [None] while it is still pending. *)
Inductive op : Type :=
| OpRun (command : list arg) (e : Env) (outcome : option settled)
| OpSubscribe (topic : list string) (e : Env)
| OpUnsubscribe (topic : list string) (e : Env) (outcome : option settled)
| OpEvict (e : Env)
| OpAcquire (id : option string) (e : Env)
| OpRelease (client : nat)
| OpClientError (client : nat) (error : jsval) (e : Env)
| OpClientConnect (client : nat)
| OpClientReady (client : nat)
| OpClientDisconnect (client : nat)
| OpClientReconnect (client : nat) (n : Z)
| OpPubsubMessage (client : nat) (message : list jsval).

Definition settle (r : result promise) (outcome : option settled)
    : ManagedRedisCluster :=
  match r, outcome with
  | Return (Awaiting k) st, Some o => snd (k o st)
  | _, _ => state_of r
  end.

(** A lifecycle event reaches its handler only while the listeners that
    [create] installed are attached. *)
Definition listening (client : nat) (st : ManagedRedisCluster)
    (handler : ManagedRedisCluster -> ManagedRedisCluster)
    : ManagedRedisCluster :=
  if listeners (deref st client) then handler st else st.

Definition exec (o : op) (st : ManagedRedisCluster) : ManagedRedisCluster :=
  match o with
  | OpRun command e outcome => settle (run command e st) outcome
  | OpSubscribe topic e => state_of (subscribe topic e st)
  | OpUnsubscribe topic e outcome => settle (unsubscribe topic e st) outcome
  | OpEvict e => evict e st
  | OpAcquire id e => state_of (acquire id e st)
  | OpRelease client => release client st
  | OpClientError client error e =>
      listening client st (onClientError client error e)
  | OpClientConnect client => listening client st (onClientConnect client)
  | OpClientReady client => listening client st (onClientReady client)
  | OpClientDisconnect client =>
      listening client st (onClientDisconnect client)
  | OpClientReconnect client n =>
      listening client st (onClientReconnect client n)
  | OpPubsubMessage client message =>
      state_of (onPubsubMessage client message st)
  end.

(** The reaction of the promise a call returned, to settle it in a later
    turn. *)
Definition reaction_of (r : result promise) : reaction :=
  match r with
  | Return (Awaiting k) _ => k
  | _ => rawCallAsync
  end.

(** The states reached from construction by operations that satisfy [ok]. *)
Inductive reachable (ok : op -> Prop) (o : Options) (fr : nat -> Fresh)
    : ManagedRedisCluster -> Prop :=
| reach_constructor : reachable ok o fr (constructor o fr)
| reach_exec : forall st x,
    reachable ok o fr st -> ok x -> reachable ok o fr (exec x st).
End Facade.

Arguments uniqueID : simpl never.

(** * Vocabulary of the properties *)

(** The in-use set holds no client object. *)
Definition no_objects (s : JsSet.t) : Prop :=
  forall x, JsSet.has s (JObject x) = false.

(** A client is marked in use when its identifier is in [poolUsed]. *)
Definition in_use (st : ManagedRedisCluster) (client : nat) : bool :=
  JsSet.has (poolUsed st) (JString (name (deref st client))).

(** The client is the one [poolUsedPS] designates. *)
Definition designated (st : ManagedRedisCluster) (client : nat) : bool :=
  String.eqb (name (deref st client)) (poolUsedPS st).

Definition named (c : fastRedis) : Prop := name c <> "".

Record sound (st : ManagedRedisCluster) : Prop := mkSound {
  sound_names : Forall named (heap st);
  sound_refs :
    Forall (fun kv => (snd kv < List.length (heap st))%nat) (pool st)
}.

(** The part of the state the router owns. *)
Definition pubsub (st : ManagedRedisCluster) : list string * string :=
  (PSTopics st, poolUsedPS st).

(** What one operation does to the router's part of the state. *)
Definition pubsub_step (o : op) (st st' : ManagedRedisCluster) : Prop :=
  match o with
  | OpSubscribe topic _ =>
      pubsub st' = pubsub st
      \/ (PSTopics st' = PSTopics st ++ topic /\ poolUsedPS st' <> "")
  | OpUnsubscribe topic _ outcome =>
      pubsub st' = pubsub st
      \/ (PSTopics st' =
            filter (fun x => negb (includes topic x)) (PSTopics st)
          /\ poolUsedPS st' =
               match outcome, PSTopics st' with
               | Some (Fulfilled _), [] => ""
               | _, _ => poolUsedPS st
               end)
  | _ => pubsub st' = pubsub st
  end.

(** The operations whose effect on the router is complete when the next
    one starts: a [subscribe] names at least one topic, and the
    PUNSUBSCRIBE call of an [unsubscribe] has been fulfilled. *)
Definition orderly (o : op) : Prop :=
  match o with
  | OpSubscribe topic _ => topic <> []
  | OpUnsubscribe _ _ outcome => exists v, outcome = Some (Fulfilled v)
  | _ => True
  end.

Definition any_op (o : op) : Prop := True.

(** The driver's client objects carry no client object under [id]. *)
Definition is_object (v : jsval) : bool :=
  match v with JObject _ => true | _ => false end.

Definition plain_draws (fr : nat -> Fresh) : Prop :=
  forall i, is_object (f_id (fr i)) = false.

Definition plain_op (o : op) : Prop :=
  match o with
  | OpRun _ e _ | OpSubscribe _ e | OpUnsubscribe _ e _ | OpEvict e
  | OpAcquire _ e | OpClientError _ _ e => plain_draws (fresh e)
  | _ => True
  end.

Record plain (st : ManagedRedisCluster) : Prop := mkPlain {
  plain_used : Forall (fun v => is_object v = false) (poolUsed st);
  plain_ids : Forall (fun c => is_object (client_id c) = false) (heap st)
}.

(** The state of a manager configured with [minPool >= 1]. *)
Record steady (st : ManagedRedisCluster) : Prop := mkSteady {
  steady_minPool : 1 <= minPool st;
  steady_pool : pool st <> [];
  steady_plain : plain st
}.

(** ** A concrete setting *)

(** A stand-in for the codec: one character per byte. *)
Definition byte_text : Codec := mkCodec string_of_list_byte list_byte_of_string.

(** The draws of process 4242 at time [t]: the [i]-th [create] of an
    operation draws the random number [i]; the driver object has no [id]. *)
Definition draw (t : Z) (i : nat) : Fresh :=
  mkFresh 4242 t (Z.of_nat i) t JUndefined.

(** An operation at time [t], every client with an empty queue. *)
Definition at_time (t : Z) : Env := mkEnv t (fun _ => 0) (draw t).

Definition options (mn mx ttl : Z) : Options :=
  mkOptions (Some mn) (Some mx) (Some ttl).

(** The candidates of the automatic path as the specification words them:
    the pool, less the clients marked in use, less the designated
    subscriber. *)
Definition free_candidates (st : ManagedRedisCluster) : list nat :=
  filter (fun x => negb (in_use st x) && negb (designated st x))
         (JsMap.values (pool st)).

(** ** Vocabulary of the further properties *)

(** The pool maps every key to a client object of the store that bears the
    key as its name, and holds no key and no client twice. *)
Record coherent (st : ManagedRedisCluster) : Prop := mkCoherent {
  coherent_keys : NoDup (map fst (pool st));
  coherent_refs : NoDup (JsMap.values (pool st));
  coherent_names :
    forall k c, In (k, c) (pool st) ->
                (c < List.length (heap st))%nat /\ name (deref st c) = k
}.

(** What the class never writes outside [create], [evict] and
    [onClientError]: the configuration, the pool and the store. *)
Definition frame (st : ManagedRedisCluster)
    : Z * Z * Z * JsMap.t nat * list fastRedis :=
  (minPool st, maxPool st, poolTTL st, pool st, heap st).

(** The test of [evict] on the idle time of a client. *)
Definition idle (currentTime : Z) (st : ManagedRedisCluster) (client : nat)
    : bool :=
  currentTime - lastUsedTime (deref st client) >=? poolTTL st.

(** Operations in sequence. *)
Definition exec_ops (a85 : Codec) (ops : list op) (st : ManagedRedisCluster)
    : ManagedRedisCluster :=
  fold_left (fun s o => exec a85 o s) ops st.

(** The driver's client objects have no [id] property. *)
Definition bare_draws (fr : nat -> Fresh) : Prop :=
  forall i, f_id (fr i) = JUndefined.

(** The operations other than a checkout by identifier, with such draws. *)
Definition facade_op (o : op) : Prop :=
  match o with
  | OpAcquire (Some _) _ => False
  | OpRun _ e _ | OpSubscribe _ e | OpUnsubscribe _ e _ | OpEvict e
  | OpAcquire None e | OpClientError _ _ e => bare_draws (fresh e)
  | _ => True
  end.

(** No client bears a mark and no driver object an [id]. *)
Record bare (st : ManagedRedisCluster) : Prop := mkBare {
  bare_used : Forall (eq JUndefined) (poolUsed st);
  bare_ids : Forall (fun c => client_id c = JUndefined) (heap st)
}.

(** The bound the pool keeps: [maxPool], or what a fatal error can leave. *)
Definition pool_bound (mn mx : Z) : Z := Z.max 0 (Z.max mx (2 * mn - 1)).

(** The string holds no ['-']. *)
Fixpoint no_dash (s : string) : bool :=
  match s with
  | EmptyString => true
  | String a s' => negb (Ascii.eqb a "-") && no_dash s'
  end.

(** The identifiers of the first [n] draws are pairwise distinct. *)
Definition distinct_ids (n : nat) (fr : nat -> Fresh) : Prop :=
  NoDup (map (fun i => uniqueID (fr i)) (seq 0 n)).

(** The event of a client: its listeners, if still attached, run. *)
Definition lifecycle_op (client : nat) (o : op) : Prop :=
  match o with
  | OpClientError c _ _ | OpClientConnect c | OpClientReady c
  | OpClientDisconnect c | OpClientReconnect c _ => c = client
  | _ => False
  end.

(** ** Handlers as their callers reach them *)

(** The error of the emitter for an ['error'] event nobody listens to; its
    message varies with the runtime and is not modelled. *)
Definition UnhandledError : jsval := JError "Unhandled error.".

(** [onClientError] with its first statement's throw:
    [this.emit('error', client.name, error)] throws when the manager has no
    ['error'] listener, before anything is detached, deleted or opened.
    [listened] tells whether the manager has one when the event arrives. *)
Definition handleClientError (listened : bool) (client : nat) (error : jsval)
    (e : Env) (st : ManagedRedisCluster) : result unit :=
  if listened then Return tt (onClientError client error e st)
  else Throw UnhandledError st.

(** What a callback may find in its first parameter: [null], an error
    object, or an array. *)
Inductive callback_arg : Type :=
| ArgNull
| ArgError (message : string)
| ArgArray (frame : list jsval).

(** [onPubsubMessage] on any first argument: [message[2]] throws on [null];
    an error object has no element 2 and no [pop]. *)
Definition onPubsubMessage_any (a85 : Codec) (client : nat)
    (message : callback_arg) (st : ManagedRedisCluster) : result unit :=
  match message with
  | ArgNull => Throw TypeError st
  | ArgError _ => Throw TypeError st
  | ArgArray frame => onPubsubMessage a85 client frame st
  end.

(** The driver calls the callback given to [rawCall] as [cb(err, resp)].
    [subscribe] passes [this.onPubsubMessage.bind(this, client)], which
    binds [client] only: [err] arrives as [message], [null] when a frame is
    delivered, and the frame [resp] arrives as a third argument the handler
    does not have. *)
Definition rawCall_callback (a85 : Codec) (client : nat)
    (err : option string) (resp : list jsval) (st : ManagedRedisCluster)
    : result unit :=
  onPubsubMessage_any a85 client
    (match err with None => ArgNull | Some m => ArgError m end) st.

(** * Properties *)

(** ** Containers *)

Lemma get_set_same {V} (m : JsMap.t V) (k : string) (v : V) :
  JsMap.get (JsMap.set m k v) k = Some v.
Proof.
  induction m as [|[k' v'] m IH]; simpl.
  - now rewrite String.eqb_refl.
  - destruct (String.eqb k' k) eqn:E; simpl; rewrite E; auto.
Qed.

Lemma get_some_in {V} (m : JsMap.t V) (k : string) (v : V) :
  JsMap.get m k = Some v -> In v (JsMap.values m).
Proof.
  induction m as [|[k' v'] m IH]; simpl; [discriminate|].
  destruct (String.eqb k' k); intros H; [left; congruence | right; auto].
Qed.

Lemma in_set {V} (m : JsMap.t V) (k : string) (v : V) (x : string * V) :
  In x (JsMap.set m k v) -> snd x = v \/ In x m.
Proof.
  induction m as [|[k' v'] m IH]; simpl.
  - intros [<-|[]]; auto.
  - destruct (String.eqb k' k); simpl; intros [<-|H]; auto.
    destruct (IH H); auto.
Qed.

Lemma in_delete {V} (m : JsMap.t V) (k : string) (x : string * V) :
  In x (JsMap.delete m k) -> In x m.
Proof.
  induction m as [|[k' v'] m IH]; simpl; auto.
  destruct (String.eqb k' k); simpl; intuition.
Qed.

Lemma length_update_nth {A} (n : nat) (f : A -> A) (l : list A) :
  List.length (update_nth n f l) = List.length l.
Proof.
  revert n; induction l as [|x l IH]; intros [|n]; simpl; auto.
Qed.

Lemma Forall_update_nth {A} (P : A -> Prop) (n : nat) (f : A -> A) (l : list A) :
  (forall x, P x -> P (f x)) -> Forall P l -> Forall P (update_nth n f l).
Proof.
  intros Hf H; revert n; induction H as [|x l Hx Hl IH]; intros [|n]; simpl;
    constructor; auto.
Qed.

Lemma in_insert_by (key : nat -> Z) (x y : nat) (l : list nat) :
  In y (insert_by key x l) <-> y = x \/ In y l.
Proof.
  induction l as [|z l IH]; simpl.
  - intuition.
  - destruct (key x - key z <=? 0); simpl; rewrite ?IH; intuition.
Qed.

Lemma in_sort_by (key : nat -> Z) (y : nat) (l : list nat) :
  In y (sort_by key l) <-> In y l.
Proof.
  induction l as [|x l IH]; simpl; [tauto|].
  rewrite in_insert_by, IH; intuition.
Qed.

Lemma length_insert_by (key : nat -> Z) (x : nat) (l : list nat) :
  List.length (insert_by key x l) = S (List.length l).
Proof.
  induction l as [|z l IH]; simpl; auto.
  destruct (key x - key z <=? 0); simpl; auto.
Qed.

Lemma length_sort_by (key : nat -> Z) (l : list nat) :
  List.length (sort_by key l) = List.length l.
Proof.
  induction l as [|x l IH]; simpl; auto.
  now rewrite length_insert_by, IH.
Qed.

Lemma length_below_one {A} (l : list A) :
  (Z.of_nat (List.length l) <? 1) = match l with [] => true | _ => false end.
Proof.
  destruct l; [reflexivity|].
  apply Z.ltb_ge; rewrite length_cons; lia.
Qed.

(** ** The filter of [acquire] *)

(** The filter tests the client object itself against a set of identifiers
    and against the designated identifier: it lets every client through. *)
Lemma acquire_filter_passes (st : ManagedRedisCluster) (x : nat) :
  no_objects (poolUsed st) -> acquire_filter st x = true.
Proof.
  intros H; unfold acquire_filter; now rewrite H.
Qed.

Lemma clientList_all (e : Env) (st : ManagedRedisCluster) :
  no_objects (poolUsed st) ->
  clientList e st = sort_by (queue_length e) (JsMap.values (pool st)).
Proof.
  intros H; unfold clientList; f_equal.
  apply forallb_filter_id, forallb_forall; intros x _.
  now apply acquire_filter_passes.
Qed.

Lemma in_clientList (e : Env) (st : ManagedRedisCluster) (c : nat) :
  In c (clientList e st) -> In c (JsMap.values (pool st)).
Proof.
  unfold clientList; rewrite in_sort_by, filter_In; tauto.
Qed.

(** ** References stay valid and every client has a name *)

Lemma uniqueID_nonempty (f : Fresh) : uniqueID f <> "".
Proof.
  unfold uniqueID.
  destruct (string_of_Z (f_pid f)); simpl; discriminate.
Qed.

Lemma sound_named (st : ManagedRedisCluster) (r : nat) :
  sound st -> (r < List.length (heap st))%nat -> name (deref st r) <> "".
Proof.
  intros [Hn _] Hr.
  rewrite Forall_forall in Hn; apply Hn, nth_In, Hr.
Qed.

Lemma sound_value (st : ManagedRedisCluster) (c : nat) :
  sound st -> In c (JsMap.values (pool st)) ->
  (c < List.length (heap st))%nat.
Proof.
  intros [_ Hr] Hc; unfold JsMap.values in Hc.
  apply in_map_iff in Hc; destruct Hc as [kv [<- Hkv]].
  rewrite Forall_forall in Hr; now apply Hr.
Qed.

Lemma sound_create (f : Fresh) (st : ManagedRedisCluster) :
  sound st -> sound (snd (create f st)).
Proof.
  intros [Hn Hr]; constructor; simpl.
  - apply Forall_app; split; auto.
    constructor; auto; apply uniqueID_nonempty.
  - rewrite length_app; simpl.
    rewrite Forall_forall in *; intros x Hx.
    apply in_set in Hx; destruct Hx as [->|Hx]; [lia|].
    specialize (Hr _ Hx); lia.
Qed.

Lemma pubsub_create (f : Fresh) (st : ManagedRedisCluster) :
  pubsub (snd (create f st)) = pubsub st.
Proof. reflexivity. Qed.

Lemma sound_create_loop (n i : nat) (fr : nat -> Fresh)
    (st : ManagedRedisCluster) :
  sound st -> sound (create_loop n i fr st).
Proof.
  revert i st; induction n as [|n IH]; intros i st H; simpl; auto.
  apply IH, sound_create, H.
Qed.

Lemma pubsub_create_loop (n i : nat) (fr : nat -> Fresh)
    (st : ManagedRedisCluster) :
  pubsub (create_loop n i fr st) = pubsub st.
Proof.
  revert i st; induction n as [|n IH]; intros i st; simpl; auto.
  rewrite IH; apply pubsub_create.
Qed.

Lemma sound_constructor (o : Options) (fr : nat -> Fresh) :
  sound (constructor o fr).
Proof.
  apply sound_create_loop; constructor; simpl; constructor.
Qed.

Lemma sound_modify (r : nat) (f : fastRedis -> fastRedis)
    (st : ManagedRedisCluster) :
  (forall c, name (f c) = name c) -> sound st -> sound (modify r f st).
Proof.
  intros Hf [Hn Hr]; constructor; simpl.
  - apply Forall_update_nth; auto.
    unfold named; intros c; now rewrite Hf.
  - now rewrite length_update_nth.
Qed.

Lemma sound_with_pool_delete (k : string) (st : ManagedRedisCluster) :
  sound st -> sound (with_pool (JsMap.delete (pool st) k) st).
Proof.
  intros [Hn Hr]; constructor; simpl; auto.
  rewrite Forall_forall in *; intros x Hx; apply Hr.
  eapply in_delete, Hx.
Qed.

Lemma sound_same (st st' : ManagedRedisCluster) :
  heap st' = heap st -> pool st' = pool st -> sound st -> sound st'.
Proof.
  intros Hh Hp [Hn Hr]; constructor; rewrite ?Hh, ?Hp; auto.
Qed.

Lemma sound_acquire (id : option string) (e : Env)
    (st : ManagedRedisCluster) :
  sound st -> sound (state_of (acquire id e st)).
Proof.
  intros H; unfold acquire.
  destruct (truthy id); simpl.
  - now apply (sound_same st).
  - destruct (clientList e st); simpl.
    + destruct (JsMap.size (pool st) <? maxPool st); simpl; auto.
      now apply (sound_same (snd (create (fresh e 0%nat) st)));
        [| |apply sound_create].
    + now apply (sound_same st).
Qed.

Lemma pubsub_acquire (id : option string) (e : Env)
    (st : ManagedRedisCluster) :
  pubsub (state_of (acquire id e st)) = pubsub st.
Proof.
  unfold acquire.
  destruct (truthy id); simpl; auto.
  destruct (clientList e st); simpl; auto.
  destruct (JsMap.size (pool st) <? maxPool st); simpl; auto.
Qed.

(** The automatic path returns a client of the pool it leaves behind. *)
Lemma acquire_auto_in_pool (e : Env) (st st1 : ManagedRedisCluster)
    (c : option nat) :
  acquire None e st = Return c st1 ->
  exists client, c = Some client /\ In client (JsMap.values (pool st1)).
Proof.
  unfold acquire; simpl.
  destruct (clientList e st) as [|x l] eqn:E.
  - destruct (JsMap.size (pool st) <? maxPool st); [|discriminate].
    simpl; intros H; inversion H; subst; clear H; simpl.
    rewrite get_set_same; eexists; split; eauto.
    eapply get_some_in, get_set_same.
  - intros H; inversion H; subst; clear H; simpl.
    eexists; split; eauto.
    apply (in_clientList e); rewrite E; now left.
Qed.

Lemma sound_release (client : nat) (st : ManagedRedisCluster) :
  sound st -> sound (release client st).
Proof. now apply sound_same. Qed.

Lemma sound_evict_one (t : Z) (client : nat) (st : ManagedRedisCluster) :
  sound st -> sound (evict_one t client st).
Proof.
  intros H; unfold evict_one.
  match goal with |- context [if ?b then _ else _] => destruct b end; auto.
  assert (H' : sound (modify client end_client st))
    by (apply sound_modify; auto).
  apply (sound_with_pool_delete (name (deref st client))) in H'.
  revert H'; now apply sound_same.
Qed.

Lemma pubsub_evict_one (t : Z) (client : nat) (st : ManagedRedisCluster) :
  pubsub (evict_one t client st) = pubsub st.
Proof.
  unfold evict_one.
  match goal with |- context [if ?b then _ else _] => destruct b end; auto.
Qed.

Lemma sound_evict_loop (t : Z) (entries : list (string * nat))
    (st : ManagedRedisCluster) :
  sound st -> sound (evict_loop t entries st).
Proof.
  revert st; induction entries as [|[k c] l IH]; intros st H; simpl; auto.
  apply IH; destruct (JsMap.has (pool st) k); auto using sound_evict_one.
Qed.

Lemma pubsub_evict_loop (t : Z) (entries : list (string * nat))
    (st : ManagedRedisCluster) :
  pubsub (evict_loop t entries st) = pubsub st.
Proof.
  revert st; induction entries as [|[k c] l IH]; intros st; simpl; auto.
  rewrite IH; destruct (JsMap.has (pool st) k); auto using pubsub_evict_one.
Qed.

Lemma sound_onClientError (client : nat) (error : jsval) (e : Env)
    (st : ManagedRedisCluster) :
  sound st -> sound (onClientError client error e st).
Proof.
  intros H; unfold onClientError.
  set (st1 := tell _ st).
  set (st2 := modify client removeAllListeners st1).
  assert (H1 : sound st1) by now apply (sound_same st).
  assert (H2 : sound st2) by (apply sound_modify; auto).
  pose proof (sound_with_pool_delete (name (deref st2 client)) st2 H2) as H3.
  match goal with |- context [if ?b then _ else _] => destruct b end; auto.
  now apply sound_create_loop.
Qed.

Lemma pubsub_onClientError (client : nat) (error : jsval) (e : Env)
    (st : ManagedRedisCluster) :
  pubsub (onClientError client error e st) = pubsub st.
Proof.
  unfold onClientError.
  match goal with |- context [if ?b then _ else _] => destruct b end; auto.
  now rewrite pubsub_create_loop.
Qed.

Lemma name_update_nth (f : fastRedis -> fastRedis) (h : list fastRedis)
    (m n : nat) :
  (forall c, name (f c) = name c) ->
  name (nth n (update_nth m f h) no_client) = name (nth n h no_client).
Proof.
  intros Hf; revert m n; induction h as [|x h IH]; intros [|m] [|n]; simpl;
    auto.
Qed.

Lemma name_modify (f : fastRedis -> fastRedis) (st : ManagedRedisCluster)
    (r c : nat) :
  (forall x, name (f x) = name x) ->
  name (deref (modify r f st) c) = name (deref st c).
Proof. intros Hf; unfold deref, modify; simpl; now apply name_update_nth. Qed.

Lemma acquire_throws (id : option string) (e : Env)
    (st st' : ManagedRedisCluster) (err : jsval) :
  acquire id e st = Throw err st' -> st' = st /\ err = AllBusy.
Proof.
  unfold acquire.
  destruct (truthy id); [discriminate|].
  destruct (clientList e st); [|discriminate].
  destruct (JsMap.size (pool st) <? maxPool st).
  - destruct (create (fresh e 0%nat) st); discriminate.
  - intros H; inversion H; auto.
Qed.

(** ** What the router does to its part of the state *)

Lemma subscribe_throws (topic : list string) (e : Env)
    (st st' : ManagedRedisCluster) (err : jsval) :
  subscribe topic e st = Throw err st' ->
  st' = st /\ err = AllBusy /\ acquire None e st = Throw AllBusy st.
Proof.
  unfold subscribe.
  destruct (acquire None e st) as [[c|] st1|err1 st1] eqn:E;
    try discriminate.
  - apply acquire_auto_in_pool in E; destruct E as [c [E _]]; discriminate.
  - intros H; inversion H; subst.
    apply acquire_throws in E as E'; destruct E' as [-> ->]; auto.
Qed.

Lemma subscribe_returns (topic : list string) (e : Env)
    (st st' : ManagedRedisCluster) (p : promise) :
  subscribe topic e st = Return p st' ->
  exists client st1,
    acquire None e st = Return (Some client) st1
    /\ In client (JsMap.values (pool st1))
    /\ p = PromiseResolve (JBool true)
    /\ PSTopics st' = PSTopics st ++ topic
    /\ poolUsedPS st' = name (deref st1 client)
    /\ pool st' = pool st1
    /\ poolUsed st' = poolUsed st1
    /\ (sound st -> sound st').
Proof.
  unfold subscribe.
  destruct (acquire None e st) as [[c|] st1|err1 st1] eqn:E;
    try discriminate.
  intros H; inversion H; subst; clear H; simpl.
  destruct (acquire_auto_in_pool _ _ _ _ E) as [c' [Hc Hin]].
  inversion Hc; subst c'.
  exists c, st1; repeat apply conj; auto.
  - generalize (pubsub_acquire None e st); rewrite E; unfold pubsub; simpl.
    now intros [= -> _].
  - now apply name_modify.
  - intros Hs.
    apply (sound_same (modify c (set_lastUsedTime (now e)) st1)); auto.
    apply sound_modify; auto.
    generalize (sound_acquire None e st Hs); now rewrite E.
Qed.

Lemma unsubscribe_throws (topic : list string) (e : Env)
    (st st' : ManagedRedisCluster) (err : jsval) :
  unsubscribe topic e st = Throw err st' ->
  st' = st /\ err = AllBusy /\ acquire None e st = Throw AllBusy st.
Proof.
  unfold unsubscribe.
  destruct (acquire None e st) as [[c|] st1|err1 st1] eqn:E.
  - match goal with |- context [if ?b then _ else _] => destruct b end;
      discriminate.
  - apply acquire_auto_in_pool in E; destruct E as [c [E _]]; discriminate.
  - intros H; inversion H; subst.
    apply acquire_throws in E as E'; destruct E' as [-> ->]; auto.
Qed.

(** The state [unsubscribe] leaves when it returns, and the state and value
    once the PUNSUBSCRIBE call has settled. *)
Lemma unsubscribe_returns (topic : list string) (e : Env)
    (st st' : ManagedRedisCluster) (p : promise) :
  unsubscribe topic e st = Return p st' ->
  exists client st1 k,
    acquire None e st = Return (Some client) st1
    /\ p = Awaiting k
    /\ PSTopics st' = filter (fun x => negb (includes topic x)) (PSTopics st)
    /\ poolUsedPS st' = poolUsedPS st
    /\ pool st' = pool st1
    /\ poolUsed st' = poolUsed st1
    /\ (sound st -> sound st')
    /\ (forall r s, k (Rejected r) s = (Rejected r, s))
    /\ (forall v s,
          k (Fulfilled v) s =
          (Fulfilled (JBool true),
           if (Z.of_nat (List.length (PSTopics st')) <? 1)
           then with_poolUsedPS "" s else s)).
Proof.
  unfold unsubscribe.
  destruct (acquire None e st) as [[c|] st1|err1 st1] eqn:E;
    try discriminate.
  pose proof (pubsub_acquire None e st) as Hp; rewrite E in Hp.
  unfold pubsub in Hp; simpl in Hp; injection Hp as Ht Hd.
  assert (Hs : sound st ->
               sound (modify c (set_lastUsedTime (now e)) st1)).
  { intros Hs; apply sound_modify; auto.
    generalize (sound_acquire None e st Hs); now rewrite E. }
  simpl.
  match goal with |- context [if ?b then _ else _] => destruct b eqn:Hb end;
    intros H; inversion H; subst; clear H; simpl;
    eexists c, st1, _; (split; [reflexivity|]); (split; [reflexivity|]);
    rewrite ?Ht, ?Hd; rewrite Ht in Hb; repeat apply conj; auto;
    try (intros Hx; apply Hs in Hx; revert Hx; now apply sound_same);
    intros; unfold then_, rawCallAsync; simpl; now rewrite ?Hb.
Qed.

Section Operations.
Variable a85 : Codec.

Lemma run_throws (command : list arg) (e : Env)
    (st st' : ManagedRedisCluster) (err : jsval) :
  run a85 command e st = Throw err st' ->
  st' = st /\ err = AllBusy /\ acquire None e st = Throw AllBusy st.
Proof.
  unfold run.
  destruct (acquire None e st) as [[c|] st1|err1 st1] eqn:E;
    try discriminate.
  - apply acquire_auto_in_pool in E; destruct E as [c [E _]]; discriminate.
  - intros H; inversion H; subst.
    apply acquire_throws in E as E'; destruct E' as [-> ->]; auto.
Qed.

(** The state [run] leaves when it returns, and what the promise it
    returns does once the raw call has settled. *)
Lemma run_returns (command : list arg) (e : Env)
    (st st' : ManagedRedisCluster) (p : promise) :
  run a85 command e st = Return p st' ->
  exists client st1 k,
    acquire None e st = Return (Some client) st1
    /\ p = Awaiting k
    /\ st' = tell (RawCallAsync client (map (encode a85) command))
                  (modify client (set_lastUsedTime (now e)) st1)
    /\ (forall r s, k (Rejected r) s = (Rejected r, s))
    /\ (forall v s, k (Fulfilled v) s = (Fulfilled v, release client s)).
Proof.
  unfold run.
  destruct (acquire None e st) as [[c|] st1|err1 st1] eqn:E;
    try discriminate.
  intros H; inversion H; subst; clear H.
  eexists c, st1, _; repeat apply conj; reflexivity.
Qed.

Lemma sound_run (command : list arg) (e : Env) (st : ManagedRedisCluster)
    (outcome : option settled) :
  sound st -> sound (settle (run a85 command e st) outcome).
Proof.
  intros Hs.
  destruct (run a85 command e st) as [p st'|err st'] eqn:E.
  - destruct (run_returns _ _ _ _ _ E) as (c & st1 & k & Ha & -> & -> & Hr & Hf).
    assert (H1 : sound st1)
      by (generalize (sound_acquire None e st Hs); now rewrite Ha).
    assert (H2 : sound (tell (RawCallAsync c (map (encode a85) command))
                          (modify c (set_lastUsedTime (now e)) st1))).
    { apply (sound_same (modify c (set_lastUsedTime (now e)) st1)); auto.
      now apply sound_modify. }
    destruct outcome as [[v|r]|]; simpl; rewrite ?Hf, ?Hr; simpl; auto.
    now apply sound_release.
  - apply run_throws in E; destruct E as [-> _].
    destruct outcome; simpl; auto.
Qed.

Lemma pubsub_run (command : list arg) (e : Env) (st : ManagedRedisCluster)
    (outcome : option settled) :
  pubsub (settle (run a85 command e st) outcome) = pubsub st.
Proof.
  destruct (run a85 command e st) as [p st'|err st'] eqn:E.
  - destruct (run_returns _ _ _ _ _ E) as (c & st1 & k & Ha & -> & -> & Hr & Hf).
    generalize (pubsub_acquire None e st); rewrite Ha; simpl; intros <-.
    destruct outcome as [[v|r]|]; simpl; rewrite ?Hf, ?Hr; reflexivity.
  - apply run_throws in E; destruct E as [-> _].
    destruct outcome; reflexivity.
Qed.

Lemma sound_listening (client : nat) (st : ManagedRedisCluster)
    (handler : ManagedRedisCluster -> ManagedRedisCluster) :
  (forall s, sound s -> sound (handler s)) ->
  sound st -> sound (listening client st handler).
Proof. intros Hh Hs; unfold listening; destruct (listeners _); auto. Qed.

Lemma pubsub_listening (client : nat) (st : ManagedRedisCluster)
    (handler : ManagedRedisCluster -> ManagedRedisCluster) :
  (forall s, pubsub (handler s) = pubsub s) ->
  pubsub (listening client st handler) = pubsub st.
Proof. intros Hh; unfold listening; destruct (listeners _); auto. Qed.

Lemma sound_onPubsubMessage (client : nat) (message : list jsval)
    (st : ManagedRedisCluster) :
  sound st -> sound (state_of (onPubsubMessage a85 client message st)).
Proof.
  intros Hs; unfold onPubsubMessage.
  destruct (last message JUndefined); simpl; auto.
  now apply (sound_same st).
Qed.

Lemma pubsub_onPubsubMessage (client : nat) (message : list jsval)
    (st : ManagedRedisCluster) :
  pubsub (state_of (onPubsubMessage a85 client message st)) = pubsub st.
Proof.
  unfold onPubsubMessage; destruct (last message JUndefined); reflexivity.
Qed.

Lemma exec_step (o : op) (st : ManagedRedisCluster) :
  sound st -> sound (exec a85 o st) /\ pubsub_step o st (exec a85 o st).
Proof.
  intros Hs; destruct o; simpl.
  - split; [now apply sound_run | apply pubsub_run].
  - destruct (subscribe topic e st) as [p st'|err st'] eqn:E; simpl.
    + destruct (subscribe_returns _ _ _ _ _ E)
        as (c & st1 & Ha & Hin & _ & Ht & Hd & _ & _ & Hs').
      split; auto; right; split; auto.
      rewrite Hd; apply sound_named.
      * generalize (sound_acquire None e st Hs); now rewrite Ha.
      * apply sound_value; auto.
        generalize (sound_acquire None e st Hs); now rewrite Ha.
    + apply subscribe_throws in E; destruct E as [-> _]; auto.
  - destruct (unsubscribe topic e st) as [p st'|err st'] eqn:E.
    + destruct (unsubscribe_returns _ _ _ _ _ E)
        as (c & st1 & k & Ha & -> & Ht & Hd & _ & _ & Hs' & Hr & Hf).
      destruct outcome as [[v|r]|]; simpl;
        rewrite ?Hf, ?Hr, ?length_below_one; simpl.
      * destruct (PSTopics st') eqn:Et; simpl.
        -- split; [apply (sound_same st'); auto|].
           right; rewrite Et; auto.
        -- split; auto; right; rewrite Et; auto.
      * split; auto.
      * split; auto.
    + apply unsubscribe_throws in E; destruct E as [-> _].
      destruct outcome; simpl; auto.
  - split; [now apply sound_evict_loop | apply pubsub_evict_loop].
  - split; [now apply sound_acquire | apply pubsub_acquire].
  - split; [now apply sound_release | reflexivity].
  - split; [apply sound_listening; auto using sound_onClientError
           | apply pubsub_listening; auto using pubsub_onClientError].
  - split; [apply sound_listening; auto | now apply pubsub_listening];
      intros s; now apply sound_same.
  - split; [apply sound_listening; auto | now apply pubsub_listening];
      intros s; now apply sound_same.
  - split; [apply sound_listening; auto | now apply pubsub_listening];
      intros s; now apply sound_same.
  - split; [apply sound_listening; auto | now apply pubsub_listening];
      intros s; now apply sound_same.
  - split; [now apply sound_onPubsubMessage | apply pubsub_onPubsubMessage].
Qed.
End Operations.

(** ** The automatic path when the candidate list is not empty *)

Lemma acquire_auto_selects (e : Env) (st st1 : ManagedRedisCluster)
    (c : option nat) :
  clientList e st <> [] ->
  acquire None e st = Return c st1 ->
  pool st1 = pool st
  /\ exists client,
       c = Some client
       /\ hd_error (clientList e st) = Some client
       /\ poolUsed st1 =
            JsSet.add (poolUsed st) (client_id (deref st client)).
Proof.
  intros Hne; unfold acquire; simpl.
  destruct (clientList e st) as [|x l]; [congruence|].
  intros H; inversion H; subst; simpl; eauto.
Qed.

Lemma no_objects_add (s : JsSet.t) (x : jsval) :
  no_objects (JsSet.add s x) -> no_objects s.
Proof.
  intros H y; specialize (H y); unfold JsSet.add in H.
  destruct (JsSet.has s x); auto.
  unfold JsSet.has in *; rewrite existsb_app in H.
  now apply orb_false_iff in H.
Qed.

Lemma clientList_nonempty (e : Env) (st : ManagedRedisCluster) (c : nat) :
  no_objects (poolUsed st) -> In c (JsMap.values (pool st)) ->
  In c (clientList e st).
Proof.
  intros Hn Hc; rewrite clientList_all by auto.
  now apply in_sort_by.
Qed.

Section Router.
Variable a85 : Codec.
Variable o : Options.
Variable fr : nat -> Fresh.

Lemma reachable_sound (ok : op -> Prop) (st : ManagedRedisCluster) :
  reachable a85 ok o fr st -> sound st.
Proof.
  induction 1 as [|st x _ IH _].
  - apply sound_constructor.
  - now apply exec_step.
Qed.

Lemma pubsub_constructor : pubsub (constructor o fr) = ([], "").
Proof. unfold constructor; now rewrite pubsub_create_loop. Qed.

Lemma topics_imply_designation (st : ManagedRedisCluster) :
  reachable a85 any_op o fr st ->
  PSTopics st <> [] -> poolUsedPS st <> "".
Proof.
  induction 1 as [|st x Hr IH _].
  - generalize pubsub_constructor; unfold pubsub; intros [= -> _]; congruence.
  - destruct (exec_step a85 x st (reachable_sound _ _ Hr)) as [_ Hstep].
    remember (exec a85 x st) as st' eqn:Est; clear Est.
    destruct x; simpl in Hstep; unfold pubsub in Hstep;
      try (injection Hstep as -> ->; exact IH).
    + destruct Hstep as [[= -> ->]|[_ Hd]]; auto.
    + destruct Hstep as [[= -> ->]|[Ht Hd]]; auto.
      intros Hne.
      assert (Hold : PSTopics st <> [])
        by (intros E; rewrite E in Ht; simpl in Ht; congruence).
      rewrite Hd.
      destruct outcome as [[v|r]|]; auto.
      destruct (PSTopics st'); [congruence|auto].
Qed.

Lemma no_topics_imply_no_designation (st : ManagedRedisCluster) :
  reachable a85 orderly o fr st ->
  PSTopics st = [] -> poolUsedPS st = "".
Proof.
  induction 1 as [|st x Hr IH Hok].
  - generalize pubsub_constructor; unfold pubsub; now intros [= _ ->].
  - destruct (exec_step a85 x st (reachable_sound _ _ Hr)) as [_ Hstep].
    remember (exec a85 x st) as st' eqn:Est; clear Est.
    destruct x; simpl in Hstep; unfold pubsub in Hstep;
      try (injection Hstep as -> ->; exact IH).
    + destruct Hstep as [[= -> ->]|[Ht _]]; auto.
      rewrite Ht; intros E; apply app_eq_nil in E.
      now destruct Hok; destruct E.
    + destruct Hstep as [[= -> ->]|[_ Hd]]; auto.
      destruct Hok as [v ->]; intros E.
      now rewrite Hd, E.
Qed.
End Router.

Lemma filter_none {A} (f : A -> bool) (l : list A) :
  (forall x, In x l -> f x = false) -> filter f l = [].
Proof.
  induction l as [|x l IH]; simpl; intros H; auto.
  rewrite (H x) by auto; auto.
Qed.

(** [subscribe([t])] then [unsubscribe([t])], both returning, from a state
    with no topic other than [t]. *)
Lemma subscribe_unsubscribe (t : string) (e1 e2 : Env)
    (st st1 st2 : ManagedRedisCluster) (p1 p2 : promise) :
  (forall x, In x (PSTopics st) -> x = t) ->
  subscribe [t] e1 st = Return p1 st1 ->
  unsubscribe [t] e2 st1 = Return p2 st2 ->
  PSTopics st2 = []
  /\ exists k,
       p2 = Awaiting k
       /\ forall v,
            k (Fulfilled v) st2
            = (Fulfilled (JBool true), with_poolUsedPS "" st2).
Proof.
  intros H0 H1 H2.
  destruct (subscribe_returns _ _ _ _ _ H1)
    as (c & sa & _ & _ & _ & Ht1 & _).
  destruct (unsubscribe_returns _ _ _ _ _ H2)
    as (c2 & sb & k & _ & -> & Ht2 & _ & _ & _ & _ & _ & Hf).
  assert (Ht : PSTopics st2 = []).
  { rewrite Ht2, Ht1; apply filter_none; intros x Hx.
    assert (x = t) as ->
      by (apply in_app_or in Hx; destruct Hx as [Hx|[<-|[]]]; auto).
    unfold includes; simpl; now rewrite String.eqb_refl. }
  split; auto; exists k; split; auto.
  intros v; rewrite Hf, Ht; reflexivity.
Qed.

(** After that round trip the client [subscribe] used is among the
    candidates of [acquire], as long as the in-use set holds no client
    object. *)
Lemma subscriber_is_candidate_again (t : string) (e1 e2 e : Env)
    (st sa st1 st2 : ManagedRedisCluster) (p1 p2 : promise) (c : nat) :
  acquire None e1 st = Return (Some c) sa ->
  subscribe [t] e1 st = Return p1 st1 ->
  unsubscribe [t] e2 st1 = Return p2 st2 ->
  no_objects (poolUsed st2) ->
  In c (clientList e (with_poolUsedPS "" st2)).
Proof.
  intros Ha H1 H2 Hn.
  destruct (subscribe_returns _ _ _ _ _ H1)
    as (c' & sa' & Ha' & Hin & _ & _ & _ & Hp1 & Hu1 & _).
  rewrite Ha in Ha'; inversion Ha'; subst c' sa'; clear Ha'.
  destruct (unsubscribe_returns _ _ _ _ _ H2)
    as (c2 & sb & k & Hb & _ & _ & _ & Hp2 & Hu2 & _).
  rewrite <- Hp1 in Hin.
  assert (Hn1 : no_objects (poolUsed st1)).
  { destruct (clientList e2 st1) eqn:El.
    - revert Hb; unfold acquire; simpl; rewrite El.
      destruct (JsMap.size (pool st1) <? maxPool st1); [|discriminate].
      intros Hb; inversion Hb; subst; clear Hb; simpl in *.
      rewrite Hu2 in Hn; now apply no_objects_add in Hn.
    - destruct (acquire_auto_selects e2 st1 sb (Some c2)) as (_ & x & _ & _ & Hu);
        [congruence|auto|].
      rewrite Hu2, Hu in Hn; now apply no_objects_add in Hn. }
  destruct (acquire_auto_selects e2 st1 sb (Some c2)) as (Hp & _); auto.
  { intros El; apply (clientList_nonempty e2) in Hin; auto.
    now rewrite El in Hin. }
  apply clientList_nonempty; simpl; auto.
  now rewrite Hp2, Hp.
Qed.

(** ** Growth of the store *)

Lemma heap_create_loop (n i : nat) (fr : nat -> Fresh)
    (st : ManagedRedisCluster) :
  List.length (heap (create_loop n i fr st)) = (List.length (heap st) + n)%nat.
Proof.
  revert i st; induction n as [|n IH]; intros i st; simpl; [lia|].
  rewrite IH; simpl; rewrite length_app; simpl; lia.
Qed.

(** When the pool is short after the removal, [onClientError] opens
    [minPool] clients, whatever the number that is missing. *)
Lemma onClientError_opens (client : nat) (error : jsval) (e : Env)
    (st : ManagedRedisCluster) :
  JsMap.size (JsMap.delete (pool st) (name (deref st client))) < minPool st ->
  List.length (heap (onClientError client error e st))
  = (List.length (heap st) + Z.to_nat (minPool st))%nat.
Proof.
  intros H; unfold onClientError.
  set (st2 := modify client removeAllListeners _).
  assert (Hn : name (deref st2 client) = name (deref st client))
    by (unfold st2; now rewrite name_modify).
  rewrite Hn; simpl pool; simpl minPool.
  apply Z.ltb_lt in H; rewrite H.
  rewrite heap_create_loop; simpl; now rewrite length_update_nth.
Qed.

(** ** A manager configured with [minPool >= 1] never runs out *)

Lemma plain_no_objects (s : JsSet.t) :
  Forall (fun v => is_object v = false) s -> no_objects s.
Proof.
  intros H x; unfold JsSet.has.
  induction H as [|v s Hv _ IH]; simpl; auto.
  rewrite IH, orb_false_r.
  destruct v; simpl in *; auto; discriminate.
Qed.

Lemma plain_add (s : JsSet.t) (x : jsval) :
  Forall (fun v => is_object v = false) s -> is_object x = false ->
  Forall (fun v => is_object v = false) (JsSet.add s x).
Proof.
  intros Hs Hx; unfold JsSet.add.
  destruct (JsSet.has s x); auto.
  apply Forall_app; auto.
Qed.

Lemma plain_delete (s : JsSet.t) (x : jsval) :
  Forall (fun v => is_object v = false) s ->
  Forall (fun v => is_object v = false) (JsSet.delete s x).
Proof.
  unfold JsSet.delete; rewrite !Forall_forall; intros H v Hv.
  apply filter_In in Hv; apply H, Hv.
Qed.

Lemma plain_deref (st : ManagedRedisCluster) (c : nat) :
  plain st -> is_object (client_id (deref st c)) = false.
Proof.
  intros [_ H]; unfold deref.
  destruct (nth_in_or_default c (heap st) no_client) as [Hin| ->]; auto.
  rewrite Forall_forall in H; now apply H.
Qed.

Lemma set_nonempty {V} (m : JsMap.t V) (k : string) (v : V) :
  JsMap.set m k v <> [].
Proof.
  destruct m as [|[k' v'] m]; simpl; [discriminate|].
  destruct (String.eqb k' k); discriminate.
Qed.

Lemma length_delete {V} (m : JsMap.t V) (k : string) :
  (List.length m <= S (List.length (JsMap.delete m k)))%nat.
Proof.
  induction m as [|[k' v'] m IH]; simpl; [lia|].
  destruct (String.eqb k' k); simpl; lia.
Qed.

Lemma plain_same (st st' : ManagedRedisCluster) :
  poolUsed st' = poolUsed st -> heap st' = heap st -> plain st -> plain st'.
Proof. intros Hu Hh [H1 H2]; constructor; now rewrite ?Hu, ?Hh. Qed.

Lemma steady_same (st st' : ManagedRedisCluster) :
  minPool st' = minPool st -> pool st' = pool st ->
  poolUsed st' = poolUsed st -> heap st' = heap st ->
  steady st -> steady st'.
Proof.
  intros Hm Hp Hu Hh [H1 H2 H3]; constructor; rewrite ?Hm, ?Hp; auto.
  now apply (plain_same st).
Qed.

Lemma plain_modify (r : nat) (f : fastRedis -> fastRedis)
    (st : ManagedRedisCluster) :
  (forall c, client_id (f c) = client_id c) -> plain st ->
  plain (modify r f st).
Proof.
  intros Hf [H1 H2]; constructor; simpl; auto.
  apply Forall_update_nth; auto.
  intros c; now rewrite Hf.
Qed.

Lemma steady_modify (r : nat) (f : fastRedis -> fastRedis)
    (st : ManagedRedisCluster) :
  (forall c, client_id (f c) = client_id c) -> steady st ->
  steady (modify r f st).
Proof.
  intros Hf [H1 H2 H3]; constructor; simpl; auto.
  now apply plain_modify.
Qed.

Lemma plain_create (f : Fresh) (st : ManagedRedisCluster) :
  is_object (f_id f) = false -> plain st -> plain (snd (create f st)).
Proof.
  intros Hf [H1 H2]; constructor; simpl; auto.
  apply Forall_app; auto.
Qed.

Lemma plain_create_loop (n i : nat) (fr : nat -> Fresh)
    (st : ManagedRedisCluster) :
  plain_draws fr -> plain st -> plain (create_loop n i fr st).
Proof.
  intros Hf; revert i st; induction n as [|n IH]; intros i st H; simpl; auto.
  apply IH, plain_create; auto.
Qed.

Lemma minPool_create_loop (n i : nat) (fr : nat -> Fresh)
    (st : ManagedRedisCluster) :
  minPool (create_loop n i fr st) = minPool st.
Proof.
  revert i st; induction n as [|n IH]; intros i st; simpl; auto.
  now rewrite IH.
Qed.

Lemma pool_create_loop (n i : nat) (fr : nat -> Fresh)
    (st : ManagedRedisCluster) :
  (0 < n)%nat \/ pool st <> [] -> pool (create_loop n i fr st) <> [].
Proof.
  revert i st; induction n as [|n IH]; intros i st H; simpl.
  - destruct H; [lia|auto].
  - apply IH; right; simpl; apply set_nonempty.
Qed.

Lemma steady_constructor (o : Options) (fr : nat -> Fresh) :
  1 <= default 1 (o_minPool o) -> plain_draws fr ->
  steady (constructor o fr).
Proof.
  intros Hm Hf; unfold constructor; constructor.
  - now rewrite minPool_create_loop.
  - apply pool_create_loop; left; lia.
  - apply plain_create_loop; auto; constructor; constructor.
Qed.

Lemma steady_acquire (id : option string) (e : Env)
    (st : ManagedRedisCluster) :
  plain_draws (fresh e) -> steady st -> steady (state_of (acquire id e st)).
Proof.
  intros Hf [H1 H2 H3]; unfold acquire.
  destruct (truthy id); simpl.
  - constructor; simpl; auto.
    destruct H3; constructor; simpl; auto using plain_add.
  - destruct (clientList e st); simpl.
    + destruct (JsMap.size (pool st) <? maxPool st); simpl.
      * destruct (plain_create (fresh e 0%nat) st (Hf 0%nat) H3) as [Hu Hi].
        constructor; simpl in *; auto.
        -- apply set_nonempty.
        -- constructor; simpl; auto using plain_add.
      * now constructor.
    + constructor; simpl; auto.
      pose proof (plain_deref st n H3).
      destruct H3; constructor; simpl; auto using plain_add.
Qed.

Lemma steady_release (client : nat) (st : ManagedRedisCluster) :
  steady st -> steady (release client st).
Proof.
  intros [H1 H2 [H3 H4]]; constructor; simpl; auto.
  constructor; simpl; auto using plain_delete.
Qed.

Lemma steady_evict_one (t : Z) (client : nat) (st : ManagedRedisCluster) :
  steady st -> steady (evict_one t client st).
Proof.
  intros H; unfold evict_one.
  destruct (t - lastUsedTime (deref st client) >=? poolTTL st); simpl; auto.
  destruct (JsMap.size (pool st) >? minPool st) eqn:E; simpl; auto.
  destruct (negb _); auto.
  destruct (steady_modify client end_client st (fun _ => eq_refl) H)
    as [H1 _ H3]; destruct H as [_ _ _].
  constructor; simpl in *; auto.
  - apply Z.gtb_lt in E; unfold JsMap.size in E.
    pose proof (length_delete (pool st) (name (deref st client))).
    intros Hnil; rewrite Hnil in *; simpl in *; lia.
  - revert H3; now apply plain_same.
Qed.

Lemma steady_evict_loop (t : Z) (entries : list (string * nat))
    (st : ManagedRedisCluster) :
  steady st -> steady (evict_loop t entries st).
Proof.
  revert st; induction entries as [|[k c] l IH]; intros st H; simpl; auto.
  apply IH; destruct (JsMap.has (pool st) k); auto using steady_evict_one.
Qed.

Lemma steady_onClientError (client : nat) (error : jsval) (e : Env)
    (st : ManagedRedisCluster) :
  plain_draws (fresh e) -> steady st ->
  steady (onClientError client error e st).
Proof.
  intros Hf H; unfold onClientError.
  set (st1 := tell _ st).
  set (st2 := modify client removeAllListeners st1).
  assert (H2 : steady st2).
  { apply steady_modify; auto; now apply (steady_same st). }
  destruct H2 as [Hm Hp Hpl].
  set (st3 := with_pool _ st2).
  assert (Hpl3 : plain st3) by (revert Hpl; now apply plain_same).
  assert (Hm3 : 1 <= minPool st3) by exact Hm.
  clearbody st3; clear Hm Hp Hpl.
  destruct (JsMap.size (pool st3) <? minPool st3) eqn:E.
  - constructor.
    + now rewrite minPool_create_loop.
    + apply pool_create_loop; left; lia.
    + now apply plain_create_loop.
  - apply Z.ltb_ge in E.
    constructor; auto.
    intros Hnil; rewrite Hnil in E; unfold JsMap.size in E; simpl in E; lia.
Qed.

Section Steady.
Variable a85 : Codec.

Lemma steady_exec (x : op) (st : ManagedRedisCluster) :
  plain_op x -> steady st -> steady (exec a85 x st).
Proof.
  intros Hx H; destruct x; simpl in *.
  - pose proof (steady_acquire None e st Hx H) as Ha.
    destruct (run a85 command e st) as [p st'|err st'] eqn:E.
    + destruct (run_returns _ _ _ _ _ _ E)
        as (c & st1 & k & Hacq & -> & -> & Hr & Hf).
      rewrite Hacq in Ha; simpl in Ha.
      assert (H2 : steady (tell (RawCallAsync c (map (encode a85) command))
                             (modify c (set_lastUsedTime (now e)) st1))).
      { apply (steady_same (modify c (set_lastUsedTime (now e)) st1)); auto.
        now apply steady_modify. }
      destruct outcome as [[v|r]|]; simpl; rewrite ?Hf, ?Hr; simpl; auto.
      now apply steady_release.
    + apply run_throws in E; destruct E as [-> _].
      destruct outcome; simpl; auto.
  - pose proof (steady_acquire None e st Hx H) as Ha.
    unfold subscribe.
    destruct (acquire None e st) as [[c|] st1|err1 st1]; simpl in *; auto.
    apply (steady_same (modify c (set_lastUsedTime (now e)) st1)); auto.
    now apply steady_modify.
  - pose proof (steady_acquire None e st Hx H) as Ha.
    assert (Hs : forall s, steady s -> steady (with_poolUsedPS "" s))
      by (intros s; now apply steady_same).
    unfold unsubscribe.
    destruct (acquire None e st) as [[c|] st1|err1 st1]; simpl in *;
      try (destruct outcome; exact Ha).
    assert (H2 : steady (modify c (set_lastUsedTime (now e)) st1))
      by now apply steady_modify.
    match goal with |- context [if ?b then _ else _] => destruct b end;
      destruct outcome as [[v|r]|]; simpl;
      try apply Hs; revert H2; now apply steady_same.
  - now apply steady_evict_loop.
  - now apply steady_acquire.
  - now apply steady_release.
  - unfold listening; destruct (listeners _); auto.
    now apply steady_onClientError.
  - unfold listening; destruct (listeners _); auto.
    revert H; now apply steady_same.
  - unfold listening; destruct (listeners _); auto.
    revert H; now apply steady_same.
  - unfold listening; destruct (listeners _); auto.
    revert H; now apply steady_same.
  - unfold listening; destruct (listeners _); auto.
    revert H; now apply steady_same.
  - unfold onPubsubMessage; destruct (last message JUndefined); simpl; auto.
    revert H; now apply steady_same.
Qed.

Lemma reachable_steady (o : Options) (fr : nat -> Fresh)
    (st : ManagedRedisCluster) :
  1 <= default 1 (o_minPool o) -> plain_draws fr ->
  reachable a85 plain_op o fr st -> steady st.
Proof.
  intros Hm Hf; induction 1 as [|st x _ IH Hx].
  - now apply steady_constructor.
  - now apply steady_exec.
Qed.
End Steady.

(** In such a state the candidate list is not empty: [acquire()] returns a
    client of the pool, whatever is marked or designated. *)
Lemma steady_acquire_returns (e : Env) (st : ManagedRedisCluster) :
  steady st ->
  exists client,
    hd_error (clientList e st) = Some client
    /\ acquire None e st
       = Return (Some client)
                (with_poolUsed
                   (JsSet.add (poolUsed st) (client_id (deref st client))) st).
Proof.
  intros [_ Hp [Hu _]].
  assert (Hl : clientList e st <> []).
  { destruct (pool st) as [|[k c] m] eqn:E; [congruence|].
    intros Hnil.
    assert (Hin : In c (clientList e st)).
    { apply clientList_nonempty; [now apply plain_no_objects|].
      rewrite E; now left. }
    now rewrite Hnil in Hin. }
  unfold acquire; simpl.
  destruct (clientList e st) as [|c l]; [congruence|].
  exists c; split; reflexivity.
Qed.

(** * The claims *)

(** C1.  The claim: the client the automatic path of [acquire] returns is
    never marked in use at the time it is selected.  The code: a manager
    built with [minPool = 1] holds one client, ["4242-1000-0"]; once that
    client is checked out by identifier, [acquire()] returns the very same
    client although its identifier is in [poolUsed].  Through [run] alone:
    with [minPool = 0] the first [run] opens a client and marks it, and
    while that [run] is pending, with room left in the pool, [acquire()]
    returns the marked client. *)
Theorem acquire_selects_client_in_use :
  (let o := options 1 10 600000 in
   let st := exec byte_text (OpAcquire (Some "4242-1000-0") (at_time 2000))
                  (constructor o (draw 1000)) in
   reachable byte_text any_op o (draw 1000) st
   /\ in_use st 0 = true
   /\ acquire None (at_time 3000) st
      = Return (Some 0%nat)
               (with_poolUsed [JString "4242-1000-0"; JUndefined] st))
  /\
  (let o := options 0 2 600000 in
   let st := exec byte_text (OpRun [Text "GET"; Text "k"] (at_time 2000) None)
                  (constructor o (draw 1000)) in
   reachable byte_text any_op o (draw 1000) st
   /\ in_use st 0 = true
   /\ JsMap.size (pool st) < maxPool st
   /\ acquire None (at_time 3000) st
      = Return (Some 0%nat)
               (with_poolUsed [JString "4242-2000-0"; JUndefined] st)).
Proof.
  split; (split; [repeat constructor|]); repeat split; reflexivity.
Qed.

(** C2.  The claim: [minPool <= |Pool| <= maxPool] in every reachable state
    of a validly configured manager.  The code: with
    [minPool = maxPool = 2], one fatal error on a client of the full pool
    leaves three clients. *)
Theorem fatal_error_grows_pool_past_maxPool :
  let o := options 2 2 600000 in
  let st0 := constructor o (draw 1000) in
  let st := exec byte_text
                 (OpClientError 0 (JError "ECONNRESET") (at_time 2000)) st0 in
  reachable byte_text any_op o (draw 1000) st
  /\ minPool st = 2 /\ maxPool st = 2
  /\ JsMap.size (pool st0) = 2
  /\ JsMap.size (pool st) = 3.
Proof.
  split; [repeat constructor|].
  repeat split; reflexivity.
Qed.

(** C3.  The claim: after a fatal error the handler opens exactly as many
    clients as are missing, so that [minPool = 2] and a full pool of two
    end with [|Pool| = 2] and one new client.  The code: the handler
    removes client 0 and opens two clients; the pool ends with three. *)
Theorem onClientError_opens_minPool_clients :
  let st0 := constructor (options 2 10 600000) (draw 1000) in
  let st := onClientError 0 (JError "ECONNRESET") (at_time 2000) st0 in
  pool st0 = [("4242-1000-0", 0%nat); ("4242-1000-1", 1%nat)]
  /\ pool st = [("4242-1000-1", 1%nat); ("4242-2000-0", 2%nat);
                ("4242-2000-1", 3%nat)]
  /\ List.length (heap st) = (List.length (heap st0) + 2)%nat.
Proof. repeat split; reflexivity. Qed.

(** C4.  The claim: [run] releases its client on both exits.  The code:
    when the raw call is rejected the state is the one [run] left when it
    returned, [release] has not run; with a client whose mark [release]
    can clear, the mark is gone after a fulfilled call and still there
    after a rejected one. *)
Theorem run_rejected_skips_release :
  (forall a85 command e st reason,
      settle (run a85 command e st) (Some (Rejected reason))
      = state_of (run a85 command e st))
  /\ let pending := run byte_text [Text "PING"] (at_time 2000)
                        (constructor (options 0 2 600000) (draw 1000)) in
     in_use (state_of pending) 0 = true
     /\ in_use (settle pending (Some (Fulfilled (JString "PONG")))) 0 = false
     /\ in_use (settle pending (Some (Rejected (JError "ERR")))) 0 = true.
Proof.
  split.
  - intros a85 command e st reason.
    destruct (run a85 command e st) as [p st'|err st'] eqn:E; [|reflexivity].
    destruct (run_returns _ _ _ _ _ _ E) as (c & st1 & k & _ & -> & _ & Hr & _).
    simpl; now rewrite Hr.
  - repeat split; reflexivity.
Qed.

(** C5.  The claim: [evict] never closes or removes a client marked in
    use.  The code: a client opened and marked by a [run] that is still
    pending, idle for the TTL, is ended and removed by the sweep.  With
    [minPool = 2]: the pool has grown to three after a fatal error, client
    1 is checked out by identifier, and the sweep ends and removes it. *)
Theorem evict_removes_client_in_use :
  (let o := options 0 2 1000 in
   let st := exec byte_text (OpRun [Text "BLPOP"; Text "q"; Text "0"]
                                   (at_time 2000) None)
                  (constructor o (draw 1000)) in
   let st' := exec byte_text (OpEvict (at_time 5000)) st in
   reachable byte_text any_op o (draw 1000) st'
   /\ in_use st 0 = true
   /\ pool st = [("4242-2000-0", 0%nat)]
   /\ ended (deref st 0) = false
   /\ pool st' = []
   /\ ended (deref st' 0) = true)
  /\
  (let o := options 2 3 1000 in
   let st := exec byte_text (OpAcquire (Some "4242-1000-1") (at_time 2500))
               (exec byte_text
                  (OpClientError 0 (JError "ECONNRESET") (at_time 2000))
                  (constructor o (draw 1000))) in
   let st' := exec byte_text (OpEvict (at_time 5000)) st in
   reachable byte_text any_op o (draw 1000) st'
   /\ in_use st 1 = true
   /\ JsMap.get (pool st) "4242-1000-1" = Some 1%nat
   /\ ended (deref st 1) = false
   /\ JsMap.get (pool st') "4242-1000-1" = None
   /\ ended (deref st' 1) = true).
Proof.
  split; (split; [repeat constructor|]); repeat split; reflexivity.
Qed.

(** C6.  The claim: [acquire()] throws exactly when no free candidate is
    left and the pool is full, and opens a client when the pool is not
    full.  The code: with the only client designated as subscriber there is
    no free candidate; [acquire()] neither throws ([maxPool = 1]) nor opens
    a client ([maxPool = 2]): it returns the subscriber. *)
Theorem acquire_returns_subscriber :
  (let o := options 1 1 600000 in
   let st := exec byte_text (OpSubscribe ["a.*"] (at_time 2000))
                  (constructor o (draw 1000)) in
   reachable byte_text any_op o (draw 1000) st
   /\ free_candidates st = []
   /\ JsMap.size (pool st) = maxPool st
   /\ designated st 0 = true
   /\ acquire None (at_time 3000) st = Return (Some 0%nat) st)
  /\
  (let o := options 1 2 600000 in
   let st := exec byte_text (OpSubscribe ["a.*"] (at_time 2000))
                  (constructor o (draw 1000)) in
   reachable byte_text any_op o (draw 1000) st
   /\ free_candidates st = []
   /\ JsMap.size (pool st) < maxPool st
   /\ designated st 0 = true
   /\ acquire None (at_time 3000) st = Return (Some 0%nat) st).
Proof.
  split; (split; [repeat constructor|]); repeat split; reflexivity.
Qed.

(** C7, as stated, fails: [subscribe([])] designates a subscriber and
    leaves the topic list empty. *)
Lemma subscribe_without_topic_sets_designation :
  let o := options 1 10 600000 in
  let st := exec byte_text (OpSubscribe [] (at_time 2000))
                 (constructor o (draw 1000)) in
  reachable byte_text any_op o (draw 1000) st
  /\ PSTopics st = []
  /\ poolUsedPS st = "4242-1000-0"
  /\ ~ (PSTopics st = [] -> poolUsedPS st = "").
Proof.
  split; [repeat constructor|].
  split; [reflexivity|split; [reflexivity|]].
  intros H; specialize (H eq_refl); discriminate H.
Qed.

(** Why the amended claim asks for settled calls run in order.  While
    PUNSUBSCRIBE is pending, or once it is rejected, the topic list is
    empty and the designation still set. *)
Lemma unsettled_unsubscribe_keeps_designation :
  let st1 := exec byte_text (OpSubscribe ["a.*"] (at_time 2000))
                  (constructor (options 1 10 600000) (draw 1000)) in
  let pending := exec byte_text (OpUnsubscribe ["a.*"] (at_time 3000) None) st1 in
  let failed := exec byte_text
                  (OpUnsubscribe ["a.*"] (at_time 3000)
                                 (Some (Rejected (JError "ERR")))) st1 in
  pubsub pending = ([], "4242-1000-0") /\ pubsub failed = ([], "4242-1000-0").
Proof. split; reflexivity. Qed.

(** And when a [subscribe] runs between an [unsubscribe] and the turn that
    settles its PUNSUBSCRIBE, the late callback clears the designation the
    new subscription has just set. *)
Lemma late_settlement_clears_designation :
  let st1 := state_of (subscribe ["a.*"] (at_time 2000)
                         (constructor (options 1 10 600000) (draw 1000))) in
  let unsub := unsubscribe ["a.*"] (at_time 3000) st1 in
  let st3 := state_of (subscribe ["b.*"] (at_time 3001) (state_of unsub)) in
  let st4 := snd (reaction_of unsub (Fulfilled (JNumber 0)) st3) in
  pubsub st3 = (["b.*"], "4242-1000-0") /\ pubsub st4 = (["b.*"], "").
Proof. split; reflexivity. Qed.

(** C7, amended.  In every state reached from construction by operations
    run one after the other, a topic list that is not empty comes with a
    designation; when moreover every [subscribe] named a topic and every
    PUNSUBSCRIBE call was fulfilled, an empty topic list comes without one.
    From a state with no topic other than [t], [subscribe([t])] then
    [unsubscribe([t])], both returning and the PUNSUBSCRIBE call fulfilled,
    resolve to [true] and leave no topic and no designation; the client [subscribe] used is
    then among the candidates of [acquire], provided the in-use set holds
    no client object. *)
Theorem subscribe_unsubscribe_designation
    (a85 : Codec) (o : Options) (fr : nat -> Fresh) :
  (forall st, reachable a85 any_op o fr st ->
              PSTopics st <> [] -> poolUsedPS st <> "")
  /\ (forall st, reachable a85 orderly o fr st ->
                 PSTopics st = [] -> poolUsedPS st = "")
  /\ (forall st t e1 e2 c sa p1 st1 p2 st2,
         (forall x, In x (PSTopics st) -> x = t) ->
         acquire None e1 st = Return (Some c) sa ->
         subscribe [t] e1 st = Return p1 st1 ->
         unsubscribe [t] e2 st1 = Return p2 st2 ->
         exists k,
           p2 = Awaiting k
           /\ forall v,
                fst (k (Fulfilled v) st2) = Fulfilled (JBool true)
                /\ PSTopics (snd (k (Fulfilled v) st2)) = []
                /\ poolUsedPS (snd (k (Fulfilled v) st2)) = ""
                /\ (no_objects (poolUsed (snd (k (Fulfilled v) st2))) ->
                    forall e, In c (clientList e (snd (k (Fulfilled v) st2))))).
Proof.
  split; [exact (topics_imply_designation a85 o fr)|].
  split; [exact (no_topics_imply_no_designation a85 o fr)|].
  intros st t e1 e2 c sa p1 st1 p2 st2 H0 Ha H1 H2.
  destruct (subscribe_unsubscribe t e1 e2 st st1 st2 p1 p2 H0 H1 H2)
    as (Ht & k & -> & Hk).
  exists k; split; [reflexivity|].
  intros v; rewrite Hk; simpl; repeat apply conj; auto.
  intros Hn e.
  apply (subscriber_is_candidate_again t e1 e2 e st sa st1 st2 p1 (Awaiting k) c);
    auto.
Qed.

Lemma subscribe_unsubscribe_designation_witness :
  let o := options 1 10 600000 in
  let st0 := constructor o (draw 1000) in
  let st1 := exec byte_text (OpSubscribe ["a.*"] (at_time 2000)) st0 in
  let st2 := exec byte_text
               (OpUnsubscribe ["a.*"] (at_time 3000)
                              (Some (Fulfilled (JNumber 0)))) st1 in
  poolUsedPS st1 <> ""
  /\ poolUsedPS st2 = ""
  /\ In 0%nat (clientList (at_time 4000) st2).
Proof.
  intros o st0 st1 st2.
  destruct (subscribe_unsubscribe_designation byte_text o (draw 1000))
    as (Hset & Hclear & Hround).
  split; [|split].
  - apply Hset; [repeat constructor | discriminate].
  - apply Hclear; [|reflexivity].
    apply reach_exec; [apply reach_exec; [apply reach_constructor|]|].
    + discriminate.
    + eexists; reflexivity.
  - destruct (Hround st0 "a.*" (at_time 2000) (at_time 3000) 0%nat
                     (with_poolUsed [JUndefined] st0)
                     (PromiseResolve (JBool true)) st1
                     _ (state_of (unsubscribe ["a.*"] (at_time 3000) st1))
                     (fun x (H : False) => match H with end)
                     eq_refl eq_refl eq_refl)
      as (k & Hk & Hv).
    injection Hk as <-.
    destruct (Hv (JNumber 0)) as (_ & _ & _ & Hc).
    apply Hc; intros x; reflexivity.
Defined.

(** ** Codec *)

Lemma prefix_sentinel (s : string) : String.prefix sentinel (sentinel ++ s) = true.
Proof.
  unfold sentinel; simpl.
  destruct (ascii_dec "002" "002"); [now destruct s | congruence].
Qed.

Lemma decode_encode (a85 : Codec) (b : list byte) :
  parse a85 (stringify a85 b) = b ->
  decode a85 (encode a85 (Binary b)) = JBuffer b.
Proof.
  intros H; unfold decode, encode.
  now rewrite prefix_sentinel; simpl; rewrite H.
Qed.

(** C8.  When [parse] undoes [stringify]: [run] sends a text element as it
    is and a binary element as the sentinel followed by its encoding, and
    the router decodes that text back to the bytes; a payload published by
    [run] and delivered in a frame of the subscription is emitted as the
    bytes it was. *)
Theorem codec_round_trip (a85 : Codec) :
  (forall b, parse a85 (stringify a85 b) = b) ->
  (forall s, encode a85 (Text s) = s)
  /\ (forall b, encode a85 (Binary b) = (sentinel ++ stringify a85 b)%string
                /\ decode a85 (encode a85 (Binary b)) = JBuffer b)
  /\ (forall channel b e st p st1,
         run a85 [Text "PUBLISH"; Text channel; Binary b] e st = Return p st1 ->
         exists client payload,
           log st1 = log st ++ [RawCallAsync client ["PUBLISH"; channel; payload]]
           /\ forall subscriber pattern st2,
                onPubsubMessage a85 subscriber
                  [JString "pmessage"; JString pattern; JString channel;
                   JString payload] st2
                = Return tt
                    (tell (EmitObject "message"
                             [("client", JObject subscriber);
                              ("topic", JString channel);
                              ("data", JBuffer b)]) st2)).
Proof.
  intros Hinv; split; [reflexivity|split].
  - intros b; split; [reflexivity | apply decode_encode, Hinv].
  - intros channel b e st p st1 Hrun.
    destruct (run_returns _ _ _ _ _ _ Hrun) as (c & sa & k & Ha & _ & -> & _).
    exists c, (encode a85 (Binary b)); split.
    + simpl.
      assert (Hl : log sa = log st); [|now rewrite Hl].
      revert Ha; unfold acquire; simpl.
      destruct (clientList e st); [destruct (_ <? _)|];
        intros H; inversion H; reflexivity.
    + intros subscriber pattern st2.
      unfold onPubsubMessage; cbn [last nth].
      now rewrite decode_encode.
Qed.

Lemma codec_round_trip_witness :
  decode byte_text (encode byte_text (Binary [x00; x02; xff; x41]))
  = JBuffer [x00; x02; xff; x41].
Proof.
  apply (proj2 (proj1 (proj2
           (codec_round_trip byte_text list_byte_of_string_of_list_byte))
           [x00; x02; xff; x41])).
Defined.

(** ** Messages *)

Lemma log_acquire (id : option string) (e : Env) (st : ManagedRedisCluster) :
  log (state_of (acquire id e st)) = log st.
Proof.
  unfold acquire.
  destruct (truthy id); simpl; auto.
  destruct (clientList e st); simpl; auto.
  destruct (JsMap.size (pool st) <? maxPool st); reflexivity.
Qed.

(** The raw call [subscribe] issues, and the client whose callback it
    binds. *)
Lemma subscribe_issues (topic : list string) (e : Env)
    (st st' : ManagedRedisCluster) (p : promise) :
  subscribe topic e st = Return p st' ->
  exists client,
    log st' = log st ++ [RawCall client ("PSUBSCRIBE" :: topic)]
    /\ poolUsedPS st' = name (deref st' client).
Proof.
  unfold subscribe.
  destruct (acquire None e st) as [[c|] st1|err1 st1] eqn:E;
    try discriminate.
  intros H; inversion H; subst; clear H.
  exists c; split; simpl.
  - generalize (log_acquire None e st); rewrite E; simpl; now intros ->.
  - reflexivity.
Qed.

(** Were the frame handed to the handler as [message], the object emitted
    would have the fields [client], [topic] and [data] and no field [id];
    and the frame that confirms the subscription, whose last element is a
    number, would make the handler throw before it emits. *)
Lemma message_event_has_no_id :
  let st := exec byte_text (OpSubscribe ["a.*"] (at_time 2000))
                 (constructor (options 1 10 600000) (draw 1000)) in
  let fields := [("client", JObject 0); ("topic", JString "a.b");
                 ("data", JString "hello")] in
  poolUsedPS st = "4242-1000-0"
  /\ onPubsubMessage byte_text 0
       [JString "pmessage"; JString "a.*"; JString "a.b"; JString "hello"] st
     = Return tt (tell (EmitObject "message" fields) st)
  /\ JsMap.get fields "id" = None
  /\ JsMap.get fields "id" <> Some (JString (poolUsedPS st))
  /\ onPubsubMessage byte_text 0
       [JString "psubscribe"; JString "a.*"; JNumber 1] st
     = Throw TypeError st.
Proof.
  repeat split; try reflexivity.
  discriminate.
Qed.

(** C9.  The claim: for every inbound frame a [message] event is emitted
    with the subscriber's identifier, the topic and the decoded payload.
    The code: the callback [subscribe] gives to [rawCall] binds the client
    only, so when the driver delivers a frame as [cb(null, frame)] the
    handler takes [null] for its message, [message[2]] throws, and nothing
    is emitted; called with an error it throws as well.  After
    [subscribe(['a.*'])], the delivery of
    [['pmessage', 'a.*', 'a.b', 'hello']] leaves the log with the
    PSUBSCRIBE call alone. *)
Theorem pubsub_callback_throws_on_delivery :
  (forall a85 client err resp st,
      rawCall_callback a85 client err resp st = Throw TypeError st)
  /\ let st := exec byte_text (OpSubscribe ["a.*"] (at_time 2000))
                    (constructor (options 1 10 600000) (draw 1000)) in
     let frame := [JString "pmessage"; JString "a.*"; JString "a.b";
                   JString "hello"] in
     log st = [RawCall 0 ["PSUBSCRIBE"; "a.*"]]
     /\ rawCall_callback byte_text 0 None frame st = Throw TypeError st
     /\ log (state_of (rawCall_callback byte_text 0 None frame st))
        = [RawCall 0 ["PSUBSCRIBE"; "a.*"]].
Proof.
  split.
  - intros a85 client [m|] resp st; reflexivity.
  - repeat split; reflexivity.
Qed.

(** A manager configured with [minPool >= 1] never throws from
    [acquire()]: there is always a client to return. *)
Lemma valid_configuration_never_exhausted (a85 : Codec) (o : Options)
    (fr : nat -> Fresh) (st : ManagedRedisCluster) (e : Env) :
  1 <= default 1 (o_minPool o) -> plain_draws fr ->
  reachable a85 plain_op o fr st ->
  exists client st', acquire None e st = Return (Some client) st'.
Proof.
  intros Hm Hf Hr.
  destruct (steady_acquire_returns e st (reachable_steady a85 o fr st Hm Hf Hr))
    as (c & _ & Ha).
  eauto.
Qed.

(** C10.  Whatever the topics and the state, [subscribe] either returns
    [Promise.resolve(true)], a promise that is settled when the call
    returns, after handing PSUBSCRIBE to the driver with a callback; or it
    throws the error of [acquire] before any command is issued.  No promise
    it returns waits for the raw call, is rejected or resolves to [false].
    In every state of a manager configured with [minPool >= 1] it
    returns. *)
Theorem subscribe_resolves_true (a85 : Codec) (topic : list string) (e : Env) :
  (forall st,
      (exists client st',
          subscribe topic e st = Return (PromiseResolve (JBool true)) st'
          /\ log st' = log st ++ [RawCall client ("PSUBSCRIBE" :: topic)])
      \/ (acquire None e st = Throw AllBusy st
          /\ subscribe topic e st = Throw AllBusy st))
  /\ (forall o fr st,
         1 <= default 1 (o_minPool o) -> plain_draws fr ->
         reachable a85 plain_op o fr st ->
         exists client st',
           subscribe topic e st = Return (PromiseResolve (JBool true)) st'
           /\ log st' = log st ++ [RawCall client ("PSUBSCRIBE" :: topic)]).
Proof.
  assert (Hall : forall st,
      (exists client st',
          subscribe topic e st = Return (PromiseResolve (JBool true)) st'
          /\ log st' = log st ++ [RawCall client ("PSUBSCRIBE" :: topic)])
      \/ (acquire None e st = Throw AllBusy st
          /\ subscribe topic e st = Throw AllBusy st)).
  { intros st.
    destruct (subscribe topic e st) as [p st'|err st'] eqn:E.
    - left.
      destruct (subscribe_returns _ _ _ _ _ E) as (c & st1 & _ & _ & -> & _).
      destruct (subscribe_issues _ _ _ _ _ E) as (c' & Hlog & _).
      eauto.
    - right.
      destruct (subscribe_throws _ _ _ _ _ E) as (-> & -> & Ha); auto. }
  split; [exact Hall|].
  intros o fr st Hm Hf Hr.
  destruct (Hall st) as [H|[Ha _]]; auto.
  destruct (valid_configuration_never_exhausted a85 o fr st e Hm Hf Hr)
    as (c & st' & Ha').
  congruence.
Qed.

Lemma subscribe_resolves_true_witness :
  exists client st',
    subscribe ["a.*"] (at_time 2000)
              (constructor (options 1 10 600000) (draw 1000))
    = Return (PromiseResolve (JBool true)) st'
    /\ log st' = [RawCall client ["PSUBSCRIBE"; "a.*"]].
Proof.
  apply (proj2 (subscribe_resolves_true byte_text ["a.*"] (at_time 2000))
               (options 1 10 600000) (draw 1000)).
  - simpl; lia.
  - intros i; reflexivity.
  - apply reach_constructor.
Defined.

(** ** When [acquire] throws *)

Lemma acquire_throws_iff (e : Env) (st : ManagedRedisCluster) :
  acquire None e st = Throw AllBusy st
  <-> clientList e st = [] /\ maxPool st <= JsMap.size (pool st).
Proof.
  unfold acquire; simpl.
  destruct (clientList e st) as [|x l].
  - destruct (JsMap.size (pool st) <? maxPool st) eqn:E.
    + apply Z.ltb_lt in E; split; [discriminate | intros [_ H]; lia].
    + apply Z.ltb_ge in E; tauto.
  - split; [discriminate | intros [H _]; discriminate].
Qed.

(** With identifiers only in the in-use set, the candidate list is empty
    only when the pool is: [acquire()] throws only on an empty pool that
    may not grow. *)
Lemma acquire_throws_on_empty_pool_only (e : Env) (st : ManagedRedisCluster) :
  no_objects (poolUsed st) ->
  acquire None e st = Throw AllBusy st
  <-> pool st = [] /\ maxPool st <= 0.
Proof.
  intros Hn; rewrite acquire_throws_iff, clientList_all by auto.
  split.
  - intros [Hl Hm].
    assert (Hp : pool st = []).
    { apply (f_equal (@List.length nat)) in Hl.
      rewrite length_sort_by in Hl; unfold JsMap.values in Hl.
      rewrite length_map in Hl; now apply length_zero_iff_nil in Hl. }
    rewrite Hp in Hm; auto.
  - intros [-> Hm]; auto.
Qed.


(** * Further properties of the pool *)

(** ** [Map] and [Set] once more *)

Lemma get_set_other {V} (m : JsMap.t V) (k k' : string) (v : V) :
  k' <> k -> JsMap.get (JsMap.set m k v) k' = JsMap.get m k'.
Proof.
  intros Hk; induction m as [|[q w] m IH]; simpl.
  - destruct (String.eqb_spec k k'); congruence.
  - destruct (String.eqb_spec q k) as [->|Hq]; simpl.
    + destruct (String.eqb_spec k k'); congruence.
    + now rewrite IH.
Qed.

Lemma has_iff_in_keys {V} (m : JsMap.t V) (k : string) :
  JsMap.has m k = true <-> In k (map fst m).
Proof.
  unfold JsMap.has; induction m as [|[q w] m IH]; simpl.
  - split; [discriminate|tauto].
  - destruct (String.eqb_spec q k) as [->|Hq].
    + split; auto.
    + rewrite IH; split; auto. intros [H|H]; [congruence|auto].
Qed.

Lemma get_in {V} (m : JsMap.t V) (k : string) (v : V) :
  JsMap.get m k = Some v -> In (k, v) m.
Proof.
  induction m as [|[q w] m IH]; simpl; [discriminate|].
  destruct (String.eqb_spec q k) as [->|Hq]; intros H.
  - left; congruence.
  - right; auto.
Qed.

Lemma in_get {V} (m : JsMap.t V) (k : string) (v : V) :
  NoDup (map fst m) -> In (k, v) m -> JsMap.get m k = Some v.
Proof.
  induction m as [|[q w] m IH]; simpl; [tauto|].
  intros Hnd [H|H]; inversion Hnd; subst.
  - inversion H; subst; now rewrite String.eqb_refl.
  - destruct (String.eqb_spec q k) as [->|Hq]; auto.
    exfalso; apply H2; apply (in_map fst) in H; exact H.
Qed.

Lemma length_set {V} (m : JsMap.t V) (k : string) (v : V) :
  List.length (JsMap.set m k v)
  = if JsMap.has m k then List.length m else S (List.length m).
Proof.
  unfold JsMap.has; induction m as [|[q w] m IH]; simpl; auto.
  destruct (String.eqb q k); simpl; auto.
  rewrite IH; destruct (JsMap.get m k); auto.
Qed.

Lemma keys_set {V} (m : JsMap.t V) (k : string) (v : V) :
  map fst (JsMap.set m k v)
  = if JsMap.has m k then map fst m else map fst m ++ [k].
Proof.
  unfold JsMap.has; induction m as [|[q w] m IH]; simpl; auto.
  destruct (String.eqb q k); simpl; auto.
  rewrite IH; destruct (JsMap.get m k); auto.
Qed.

Lemma delete_absent {V} (m : JsMap.t V) (k : string) :
  JsMap.has m k = false -> JsMap.delete m k = m.
Proof.
  unfold JsMap.has; induction m as [|[q w] m IH]; simpl; auto.
  destruct (String.eqb q k); [discriminate|].
  intros H; now rewrite IH.
Qed.

Lemma length_delete_present {V} (m : JsMap.t V) (k : string) :
  JsMap.has m k = true ->
  S (List.length (JsMap.delete m k)) = List.length m.
Proof.
  unfold JsMap.has; induction m as [|[q w] m IH]; simpl; [discriminate|].
  destruct (String.eqb q k); simpl; auto.
Qed.

Lemma get_delete_other {V} (m : JsMap.t V) (k k' : string) :
  k' <> k -> JsMap.get (JsMap.delete m k) k' = JsMap.get m k'.
Proof.
  intros Hk; induction m as [|[q w] m IH]; simpl; auto.
  destruct (String.eqb_spec q k) as [->|Hq]; simpl.
  - destruct (String.eqb_spec k k'); congruence.
  - now rewrite IH.
Qed.

Lemma get_delete_same {V} (m : JsMap.t V) (k : string) :
  NoDup (map fst m) -> JsMap.get (JsMap.delete m k) k = None.
Proof.
  induction m as [|[q w] m IH]; simpl; auto.
  intros Hnd; inversion Hnd; subst.
  destruct (String.eqb_spec q k) as [->|Hq]; simpl.
  - destruct (JsMap.get m k) eqn:E; auto.
    apply get_in, (in_map fst) in E; contradiction.
  - destruct (String.eqb_spec q k); [contradiction|auto].
Qed.

Lemma keys_delete {V} (m : JsMap.t V) (k : string) (x : string) :
  In x (map fst (JsMap.delete m k)) -> In x (map fst m).
Proof.
  induction m as [|[q w] m IH]; simpl; auto.
  destruct (String.eqb q k); simpl; intuition.
Qed.

Lemma nodup_keys_delete {V} (m : JsMap.t V) (k : string) :
  NoDup (map fst m) -> NoDup (map fst (JsMap.delete m k)).
Proof.
  induction m as [|[q w] m IH]; simpl; auto.
  intros Hnd; inversion Hnd; subst.
  destruct (String.eqb q k); simpl; auto.
  constructor; auto.
  intros H; apply keys_delete in H; contradiction.
Qed.

Lemma strict_eq_true (a b : jsval) : strict_eq a b = true -> a = b.
Proof.
  destruct a, b; simpl; try discriminate; auto; intros H.
  - apply Bool.eqb_prop in H; congruence.
  - apply Z.eqb_eq in H; congruence.
  - apply String.eqb_eq in H; congruence.
  - apply Nat.eqb_eq in H; congruence.
Qed.

Lemma has_add_other (s : JsSet.t) (x y : jsval) :
  strict_eq y x = false -> JsSet.has (JsSet.add s x) y = JsSet.has s y.
Proof.
  intros H; unfold JsSet.add.
  destruct (JsSet.has s x); auto.
  unfold JsSet.has; rewrite existsb_app; simpl.
  now rewrite H, !orb_false_r.
Qed.

Lemma has_add_string (s : JsSet.t) (i : string) :
  JsSet.has (JsSet.add s (JString i)) (JString i) = true.
Proof.
  unfold JsSet.add.
  destruct (JsSet.has s (JString i)) eqn:E; auto.
  unfold JsSet.has; rewrite existsb_app; simpl.
  now rewrite String.eqb_refl, orb_true_r.
Qed.

Lemma has_delete_same (s : JsSet.t) (x : jsval) :
  JsSet.has (JsSet.delete s x) x = false.
Proof.
  unfold JsSet.has, JsSet.delete.
  induction s as [|y s IH]; simpl; auto.
  destruct (strict_eq x y) eqn:E; simpl; auto.
  now rewrite E.
Qed.

Lemma has_delete_other (s : JsSet.t) (x y : jsval) :
  strict_eq y x = false ->
  JsSet.has (JsSet.delete s x) y = JsSet.has s y.
Proof.
  intros H; unfold JsSet.has, JsSet.delete.
  induction s as [|z s IH]; simpl; auto.
  destruct (strict_eq x z) eqn:E; simpl.
  - apply strict_eq_true in E; subst z; now rewrite H.
  - now rewrite IH.
Qed.

Lemma delete_add_fresh (s : JsSet.t) (i : string) :
  JsSet.has s (JString i) = false ->
  JsSet.delete (JsSet.add s (JString i)) (JString i) = s.
Proof.
  intros H; unfold JsSet.add; rewrite H.
  unfold JsSet.delete; rewrite filter_app; simpl.
  rewrite String.eqb_refl; simpl; rewrite app_nil_r.
  apply forallb_filter_id, forallb_forall; intros y Hy.
  unfold JsSet.has in H.
  assert (E : strict_eq (JString i) y = false).
  { destruct (strict_eq (JString i) y) eqn:E; auto.
    assert (existsb (strict_eq (JString i)) s = true)
      by (apply existsb_exists; eauto).
    congruence. }
  simpl in E; now rewrite E.
Qed.

(** ** Properties kept by every operation *)

(** A property of the store and the pool that survives the four ways the
    class changes them survives every operation. *)
Section Kept.
Variable a85 : Codec.
Variable P : ManagedRedisCluster -> Prop.
Hypothesis P_same : forall st st', frame st' = frame st -> P st -> P st'.
Hypothesis P_stamp : forall r t st, P st -> P (modify r (set_lastUsedTime t) st).
Hypothesis P_mute : forall r st, P st -> P (modify r removeAllListeners st).
Hypothesis P_end : forall r st, P st -> P (modify r end_client st).
Hypothesis P_create : forall f st, P st -> P (snd (create f st)).
Hypothesis P_delete : forall k st,
  P st -> P (with_pool (JsMap.delete (pool st) k) st).

Lemma kept_create_loop (n i : nat) (fr : nat -> Fresh)
    (st : ManagedRedisCluster) :
  P st -> P (create_loop n i fr st).
Proof.
  revert i st; induction n as [|n IH]; intros i st H; simpl; auto.
  apply IH, P_create, H.
Qed.

Lemma kept_acquire (id : option string) (e : Env)
    (st : ManagedRedisCluster) :
  P st -> P (state_of (acquire id e st)).
Proof.
  intros H; unfold acquire.
  destruct (truthy id); simpl.
  - now apply (P_same st).
  - destruct (clientList e st); simpl.
    + destruct (JsMap.size (pool st) <? maxPool st); simpl; auto.
      now apply (P_same (snd (create (fresh e 0%nat) st))); [|apply P_create].
    + now apply (P_same st).
Qed.

Lemma kept_evict_loop (t : Z) (entries : list (string * nat))
    (st : ManagedRedisCluster) :
  P st -> P (evict_loop t entries st).
Proof.
  revert st; induction entries as [|[k c] l IH]; intros st H; simpl; auto.
  apply IH; destruct (JsMap.has (pool st) k); auto.
  unfold evict_one.
  match goal with |- context [if ?b then _ else _] => destruct b end; auto.
  apply (P_delete (name (deref st c))) in H as H'.
  apply (P_end c) in H.
  apply (P_delete (name (deref st c))) in H.
  revert H; now apply P_same.
Qed.

Lemma kept_onClientError (client : nat) (error : jsval) (e : Env)
    (st : ManagedRedisCluster) :
  P st -> P (onClientError client error e st).
Proof.
  intros H; unfold onClientError.
  set (st1 := tell _ st).
  set (st2 := modify client removeAllListeners st1).
  assert (H2 : P st2) by (apply P_mute; now apply (P_same st)).
  apply (P_delete (name (deref st2 client))) in H2.
  match goal with |- context [if ?b then _ else _] => destruct b end; auto.
  now apply kept_create_loop.
Qed.

Lemma kept_exec (x : op) (st : ManagedRedisCluster) :
  P st -> P (exec a85 x st).
Proof.
  intros H; destruct x; simpl.
  - pose proof (kept_acquire None e st H) as Ha.
    destruct (run a85 command e st) as [p st'|err st'] eqn:E.
    + destruct (run_returns _ _ _ _ _ _ E)
        as (c & st1 & k & Hacq & -> & -> & Hr & Hf).
      rewrite Hacq in Ha; simpl in Ha.
      assert (H2 : P (tell (RawCallAsync c (map (encode a85) command))
                        (modify c (set_lastUsedTime (now e)) st1)))
        by (apply (P_same (modify c (set_lastUsedTime (now e)) st1)); auto).
      destruct outcome as [[v|r]|]; simpl; rewrite ?Hf, ?Hr; simpl; auto.
      revert H2; now apply P_same.
    + apply run_throws in E; destruct E as [-> _].
      destruct outcome; simpl; auto.
  - pose proof (kept_acquire None e st H) as Ha.
    unfold subscribe.
    destruct (acquire None e st) as [[c|] st1|err1 st1]; simpl in *; auto.
    apply (P_same (modify c (set_lastUsedTime (now e)) st1)); auto.
  - pose proof (kept_acquire None e st H) as Ha.
    assert (Hs : forall s, P s -> P (with_poolUsedPS "" s))
      by (intros s; now apply P_same).
    unfold unsubscribe.
    destruct (acquire None e st) as [[c|] st1|err1 st1]; simpl in *;
      try (destruct outcome; exact Ha).
    assert (H2 : P (modify c (set_lastUsedTime (now e)) st1)) by auto.
    match goal with |- context [if ?b then _ else _] => destruct b end;
      destruct outcome as [[v|r]|]; simpl;
      try apply Hs; revert H2; now apply P_same.
  - now apply kept_evict_loop.
  - now apply kept_acquire.
  - revert H; now apply P_same.
  - unfold listening; destruct (listeners _); auto.
    now apply kept_onClientError.
  - unfold listening; destruct (listeners _); auto.
    revert H; now apply P_same.
  - unfold listening; destruct (listeners _); auto.
    revert H; now apply P_same.
  - unfold listening; destruct (listeners _); auto.
    revert H; now apply P_same.
  - unfold listening; destruct (listeners _); auto.
    revert H; now apply P_same.
  - unfold onPubsubMessage; destruct (last message JUndefined); simpl; auto.
    revert H; now apply P_same.
Qed.

Lemma kept_exec_ops (ops : list op) (st : ManagedRedisCluster) :
  P st -> P (exec_ops a85 ops st).
Proof.
  unfold exec_ops; revert st; induction ops as [|x ops IH]; intros st H;
    simpl; auto.
  apply IH, kept_exec, H.
Qed.

Lemma kept_reachable (ok : op -> Prop) (o : Options) (fr : nat -> Fresh)
    (st : ManagedRedisCluster) :
  (forall mn mx ttl, P (mkCluster mn mx ttl [] [] "" [] [] [])) ->
  reachable a85 ok o fr st -> P st.
Proof.
  intros H0; induction 1 as [|st x _ IH _].
  - unfold constructor; apply kept_create_loop, H0.
  - now apply kept_exec.
Qed.
End Kept.

(** ** The pool stays coherent *)

Lemma in_set_cases {V} (m : JsMap.t V) (k0 : string) (v : V)
    (k : string) (c : V) :
  NoDup (map fst m) ->
  In (k, c) (JsMap.set m k0 v) ->
  (k = k0 /\ c = v) \/ (k <> k0 /\ In (k, c) m).
Proof.
  induction m as [|[q w] m IH]; simpl; intros Hnd.
  - intros [H|[]]; inversion H; auto.
  - inversion Hnd as [|? ? Hnq Hnm]; subst.
    destruct (String.eqb_spec q k0) as [->|Hq]; simpl.
    + intros [H|H]; [inversion H; auto|].
      right; split; auto.
      intros ->; apply (in_map fst) in H; contradiction.
    + intros [H|H]; [inversion H; subst; auto|].
      destruct (IH Hnm H) as [?|[? ?]]; auto.
Qed.

Lemma values_set {V} (m : JsMap.t V) (k : string) (v x : V) :
  In x (JsMap.values (JsMap.set m k v)) -> x = v \/ In x (JsMap.values m).
Proof.
  unfold JsMap.values; rewrite !in_map_iff.
  intros [[q w] [<- H]]; apply in_set in H; simpl in *.
  destruct H as [H|H]; auto.
  right; exists (q, w); auto.
Qed.

Lemma nodup_values_set {V} (m : JsMap.t V) (k : string) (v : V) :
  NoDup (JsMap.values m) -> ~ In v (JsMap.values m) ->
  NoDup (JsMap.values (JsMap.set m k v)).
Proof.
  unfold JsMap.values; induction m as [|[q w] m IH]; simpl; intros Hnd Hv.
  - constructor; auto.
  - inversion Hnd; subst.
    destruct (String.eqb q k); simpl.
    + constructor; auto.
    + constructor; auto.
      intros H; apply (values_set m k v w) in H.
      destruct H as [->|H]; auto.
Qed.

Lemma values_delete {V} (m : JsMap.t V) (k : string) (x : V) :
  In x (JsMap.values (JsMap.delete m k)) -> In x (JsMap.values m).
Proof.
  unfold JsMap.values; rewrite !in_map_iff.
  intros [kv [<- H]]; exists kv; split; auto.
  eapply in_delete, H.
Qed.

Lemma nodup_values_delete {V} (m : JsMap.t V) (k : string) :
  NoDup (JsMap.values m) -> NoDup (JsMap.values (JsMap.delete m k)).
Proof.
  induction m as [|[q w] m IH]; simpl; auto.
  intros Hnd; inversion Hnd; subst.
  destruct (String.eqb q k); simpl; auto.
  constructor; auto.
  intros H; apply values_delete in H; contradiction.
Qed.

Lemma deref_create_old (f : Fresh) (st : ManagedRedisCluster) (c : nat) :
  (c < List.length (heap st))%nat ->
  deref (snd (create f st)) c = deref st c.
Proof. intros H; unfold deref; simpl; now rewrite app_nth1. Qed.

Lemma deref_create_new (f : Fresh) (st : ManagedRedisCluster) :
  deref (snd (create f st)) (List.length (heap st))
  = mkClient (uniqueID f) (f_now f) (f_id f) true false.
Proof.
  unfold deref; simpl; rewrite app_nth2 by lia.
  now rewrite Nat.sub_diag.
Qed.

Lemma coherent_same (st st' : ManagedRedisCluster) :
  heap st' = heap st -> pool st' = pool st -> coherent st -> coherent st'.
Proof.
  intros Hh Hp [H1 H2 H3]; constructor; unfold deref; rewrite ?Hh, ?Hp; auto.
Qed.

Lemma coherent_modify (r : nat) (f : fastRedis -> fastRedis)
    (st : ManagedRedisCluster) :
  (forall c, name (f c) = name c) -> coherent st -> coherent (modify r f st).
Proof.
  intros Hf [H1 H2 H3]; constructor; auto.
  intros k c Hin; simpl in Hin.
  rewrite name_modify by auto; simpl.
  rewrite length_update_nth; auto.
Qed.

Lemma coherent_create (f : Fresh) (st : ManagedRedisCluster) :
  coherent st -> coherent (snd (create f st)).
Proof.
  intros [H1 H2 H3].
  assert (Hnew : ~ In (List.length (heap st)) (JsMap.values (pool st))).
  { unfold JsMap.values; rewrite in_map_iff; intros [[k c] [Hc Hin]].
    simpl in Hc; subst c; apply H3 in Hin; lia. }
  constructor.
  - simpl; rewrite keys_set.
    destruct (JsMap.has (pool st) (uniqueID f)) eqn:E; auto.
    apply NoDup_app; repeat split; auto.
    + constructor; [intros []|constructor].
    + intros x Hx [<-|[]].
      apply has_iff_in_keys in Hx; congruence.
  - simpl; now apply nodup_values_set.
  - intros k c Hin.
    apply in_set_cases in Hin; auto.
    destruct Hin as [[-> ->]|[_ Hin]].
    + rewrite deref_create_new; simpl; rewrite length_app; simpl; split; [lia|auto].
    + destruct (H3 _ _ Hin) as [Hc Hn].
      rewrite deref_create_old by auto.
      simpl; rewrite length_app; split; [lia|auto].
Qed.

Lemma coherent_delete (k : string) (st : ManagedRedisCluster) :
  coherent st -> coherent (with_pool (JsMap.delete (pool st) k) st).
Proof.
  intros [H1 H2 H3]; constructor; simpl.
  - now apply nodup_keys_delete.
  - now apply nodup_values_delete.
  - intros q c Hin; apply in_delete in Hin; now apply H3.
Qed.

Lemma coherent_exec_ops (a85 : Codec) (ops : list op)
    (st : ManagedRedisCluster) :
  coherent st -> coherent (exec_ops a85 ops st).
Proof.
  apply kept_exec_ops;
    [ intros ? ? [= _ _ _ Hp Hh]; now apply coherent_same
    | intros; now apply coherent_modify
    | intros; now apply coherent_modify
    | intros; now apply coherent_modify
    | exact coherent_create
    | exact coherent_delete ].
Qed.

Lemma coherent_reachable (a85 : Codec) (ok : op -> Prop) (o : Options)
    (fr : nat -> Fresh) (st : ManagedRedisCluster) :
  reachable a85 ok o fr st -> coherent st.
Proof.
  apply kept_reachable;
    [ intros ? ? [= _ _ _ Hp Hh]; now apply coherent_same
    | intros; now apply coherent_modify
    | intros; now apply coherent_modify
    | intros; now apply coherent_modify
    | exact coherent_create
    | exact coherent_delete
    | ].
  intros; constructor; simpl; [constructor | constructor | intros ? ? []].
Qed.

(** ** Construction *)

Lemma has_set_other {V} (m : JsMap.t V) (k k' : string) (v : V) :
  k' <> k -> JsMap.has (JsMap.set m k v) k' = JsMap.has m k'.
Proof. intros H; unfold JsMap.has; now rewrite get_set_other. Qed.

Lemma length_pool_create_loop_le (n i : nat) (fr : nat -> Fresh)
    (st : ManagedRedisCluster) :
  (List.length (pool st) <= List.length (pool (create_loop n i fr st))
   <= List.length (pool st) + n)%nat.
Proof.
  revert i st; induction n as [|n IH]; intros i st; simpl; [lia|].
  specialize (IH (S i) (snd (create (fr i) st))); simpl in IH.
  rewrite length_set in IH.
  destruct (JsMap.has (pool st) (uniqueID (fr i))); lia.
Qed.

Lemma length_pool_create_loop_fresh (n i : nat) (fr : nat -> Fresh)
    (st : ManagedRedisCluster) :
  NoDup (map (fun j => uniqueID (fr j)) (seq i n)) ->
  (forall j, (i <= j < i + n)%nat ->
             JsMap.has (pool st) (uniqueID (fr j)) = false) ->
  List.length (pool (create_loop n i fr st)) = (List.length (pool st) + n)%nat.
Proof.
  revert i st; induction n as [|n IH]; intros i st Hnd Hf; simpl; [lia|].
  simpl in Hnd; inversion Hnd as [|? ? Hi Hrest]; subst.
  rewrite IH; auto.
  - simpl; rewrite length_set, Hf by lia; lia.
  - intros j Hj; simpl.
    rewrite has_set_other; [apply Hf; lia|].
    intros E; apply Hi; rewrite <- E.
    apply (in_map (fun j => uniqueID (fr j))), in_seq; lia.
Qed.

Lemma heap_poolUsed_create_loop (n i : nat) (fr : nat -> Fresh)
    (st : ManagedRedisCluster) :
  (maxPool (create_loop n i fr st), poolTTL (create_loop n i fr st),
   poolUsed (create_loop n i fr st), log (create_loop n i fr st))
  = (maxPool st, poolTTL st, poolUsed st, log st).
Proof.
  revert i st; induction n as [|n IH]; intros i st; simpl; auto.
  now rewrite IH.
Qed.

Lemma pool_create_loop_collision (n i : nat) (fr : nat -> Fresh)
    (st : ManagedRedisCluster) (u : string) (r : nat) :
  (forall j, uniqueID (fr j) = u) ->
  pool st = [(u, r)] ->
  pool (create_loop n i fr st)
  = [(u, match n with O => r | S k => List.length (heap st) + k end)%nat].
Proof.
  intros Hu; revert i st r; induction n as [|n IH]; intros i st r Hp;
    simpl; auto.
  rewrite (IH _ _ (List.length (heap st))).
  - simpl; rewrite length_app; simpl.
    destruct n; f_equal; f_equal; lia.
  - simpl; rewrite Hp, Hu; simpl; now rewrite String.eqb_refl.
Qed.

(** X1.  In every reachable state the pool is coherent: a key maps to a
    client object that exists and bears the key as its name, looking up the
    name of a pooled client gives that client back, and no client is in
    the pool twice. *)
Theorem pool_keys_are_client_names (a85 : Codec) (o : Options)
    (fr : nat -> Fresh) (st : ManagedRedisCluster) :
  reachable a85 any_op o fr st ->
  (forall k c, JsMap.get (pool st) k = Some c ->
               (c < List.length (heap st))%nat /\ name (deref st c) = k)
  /\ (forall c, In c (JsMap.values (pool st)) ->
                JsMap.get (pool st) (name (deref st c)) = Some c)
  /\ NoDup (JsMap.values (pool st)).
Proof.
  intros Hr; destruct (coherent_reachable _ _ _ _ _ Hr) as [H1 H2 H3].
  repeat apply conj; auto.
  - intros k c Hg; apply H3, get_in, Hg.
  - intros c Hc; unfold JsMap.values in Hc.
    apply in_map_iff in Hc; destruct Hc as [[k c'] [Hs Hin]].
    simpl in Hs; subst c'.
    destruct (H3 _ _ Hin) as [_ ->]; now apply in_get.
Qed.

Lemma pool_keys_are_client_names_witness :
  let st := exec byte_text
              (OpClientError 0 (JError "ECONNRESET") (at_time 2000))
              (constructor (options 2 10 600000) (draw 1000)) in
  name (deref st 3) = "4242-2000-1"
  /\ JsMap.get (pool st) (name (deref st 1)) = Some 1%nat.
Proof.
  intros st.
  destruct (pool_keys_are_client_names byte_text (options 2 10 600000)
              (draw 1000) st) as (Hk & Hc & _).
  - repeat constructor.
  - split.
    + apply (Hk "4242-2000-1" 3%nat); reflexivity.
    + apply Hc; vm_compute; auto.
Defined.

(** X2.  [create] binds the identifier it returns to the new client: the
    lookup of that identifier gives the new object, named by the
    identifier, stamped with the time of the call, listening and not
    ended; every other key keeps its binding; and the pool grows by one
    exactly when the identifier was not a key already, otherwise the new
    client replaces the one bound to it. *)
Theorem create_binds_identifier (f : Fresh) (st : ManagedRedisCluster) :
  let id := fst (create f st) in
  let st' := snd (create f st) in
  let client := List.length (heap st) in
  id = uniqueID f
  /\ JsMap.get (pool st') id = Some client
  /\ deref st' client = mkClient id (f_now f) (f_id f) true false
  /\ (forall k, k <> id -> JsMap.get (pool st') k = JsMap.get (pool st) k)
  /\ (forall c, (c < client)%nat -> deref st' c = deref st c)
  /\ JsMap.size (pool st')
     = if JsMap.has (pool st) id then JsMap.size (pool st)
       else JsMap.size (pool st) + 1.
Proof.
  simpl; repeat apply conj; auto.
  - apply get_set_same.
  - apply deref_create_new.
  - intros k Hk; now apply get_set_other.
  - intros c Hc; now apply deref_create_old.
  - unfold JsMap.size; rewrite length_set.
    destruct (JsMap.has (pool st) (uniqueID f)); lia.
Qed.

Lemma create_binds_identifier_witness :
  JsMap.get (pool (snd (create (draw 2000 0)
                          (constructor (options 1 10 600000) (draw 1000)))))
            "4242-1000-0"
  = Some 0%nat.
Proof.
  rewrite (proj1 (proj2 (proj2 (proj2
             (create_binds_identifier (draw 2000 0)
                (constructor (options 1 10 600000) (draw 1000))))))
             "4242-1000-0" ltac:(discriminate)).
  reflexivity.
Defined.

(** X3.  The constructor applies the defaults 1, 10 and 600000, opens
    [minPool] client objects (none when [minPool <= 0]), marks none, and
    designates none; the pool holds at most that many clients, and exactly
    that many when the identifiers drawn are pairwise distinct. *)
Theorem constructor_opens_minPool (o : Options) (fr : nat -> Fresh) :
  let st := constructor o fr in
  let n := Z.to_nat (default 1 (o_minPool o)) in
  (minPool st, maxPool st, poolTTL st)
  = (default 1 (o_minPool o), default 10 (o_maxPool o),
     default 600000 (o_ttl o))
  /\ List.length (heap st) = n
  /\ (poolUsed st, poolUsedPS st, PSTopics st, log st) = ([], "", [], [])
  /\ (List.length (pool st) <= n)%nat
  /\ (distinct_ids n fr -> List.length (pool st) = n).
Proof.
  unfold constructor; cbv zeta.
  set (st0 := mkCluster _ _ _ [] [] "" [] [] []).
  set (n := Z.to_nat _).
  pose proof (heap_poolUsed_create_loop n 0 fr st0) as Hc.
  pose proof (pubsub_create_loop n 0 fr st0) as Hp; unfold pubsub in Hp.
  injection Hc as Hmx Httl Hu Hl; injection Hp as Ht Hd.
  repeat apply conj.
  - now rewrite minPool_create_loop, Hmx, Httl.
  - now rewrite heap_create_loop.
  - now rewrite Hu, Hd, Ht, Hl.
  - apply (length_pool_create_loop_le n 0 fr st0).
  - intros Hdis; rewrite length_pool_create_loop_fresh; auto.
Qed.

Lemma constructor_opens_minPool_witness :
  List.length (pool (constructor (options 3 10 600000) (draw 1000))) = 3%nat.
Proof.
  apply (proj2 (proj2 (proj2 (proj2
           (constructor_opens_minPool (options 3 10 600000) (draw 1000)))))).
  unfold distinct_ids; simpl.
  repeat constructor; simpl; intuition discriminate.
Defined.

(** X4.  When every draw yields the same identifier, each client the
    constructor opens replaces the previous one under that key: with
    [minPool >= 1] the pool ends with the single, last client, below
    [minPool] as soon as [minPool >= 2]. *)
Theorem constructor_identifier_collision (o : Options) (fr : nat -> Fresh)
    (u : string) :
  1 <= default 1 (o_minPool o) ->
  (forall i, uniqueID (fr i) = u) ->
  pool (constructor o fr)
  = [(u, (Z.to_nat (default 1 (o_minPool o)) - 1)%nat)]
  /\ List.length (heap (constructor o fr))
     = Z.to_nat (default 1 (o_minPool o)).
Proof.
  intros Hm Hu; split.
  - unfold constructor; cbv zeta.
    destruct (Z.to_nat (default 1 (o_minPool o))) as [|n] eqn:E; [lia|].
    simpl create_loop.
    rewrite (pool_create_loop_collision n 1 fr _ u 0%nat); auto.
    + simpl; destruct n; f_equal; f_equal; lia.
    + simpl; now rewrite Hu.
  - unfold constructor; cbv zeta; now rewrite heap_create_loop.
Qed.

Lemma constructor_identifier_collision_witness :
  pool (constructor (options 3 10 600000)
                    (fun _ => mkFresh 4242 1000 7 1000 JUndefined))
  = [("4242-1000-7", 2%nat)].
Proof.
  apply (proj1 (constructor_identifier_collision (options 3 10 600000)
                  (fun _ => mkFresh 4242 1000 7 1000 JUndefined)
                  "4242-1000-7" ltac:(simpl; lia) (fun _ => eq_refl))).
Defined.

(** ** Checking out and checking in *)

Lemma hd_sort_by (key : nat -> Z) (l : list nat) (c : nat) :
  hd_error (sort_by key l) = Some c ->
  exists l1 l2,
    l = l1 ++ c :: l2
    /\ (forall x, In x l1 -> key c < key x)
    /\ (forall x, In x l2 -> key c <= key x).
Proof.
  revert c; induction l as [|x l IH]; intros c; simpl; [discriminate|].
  destruct (sort_by key l) as [|y s] eqn:E; simpl.
  - intros [= <-].
    assert (l = []) as ->
      by (apply length_zero_iff_nil; rewrite <- (length_sort_by key), E; auto).
    exists [], []; repeat split; intros ? [].
  - destruct (IH y eq_refl) as (l1 & l2 & -> & H1 & H2).
    destruct (key x - key y <=? 0) eqn:C; simpl; intros [= <-].
    + apply Z.leb_le in C.
      exists [], (l1 ++ y :: l2); repeat split; [intros ? []|].
      intros z Hz; apply in_app_or in Hz.
      destruct Hz as [Hz|[<-|Hz]]; [apply H1 in Hz|..|apply H2 in Hz]; lia.
    + apply Z.leb_gt in C.
      exists (x :: l1), l2; repeat split; auto.
      intros z [<-|Hz]; [lia|auto].
Qed.

(** X5.  A checkout by identifier returns what the pool holds under the
    identifier, [undefined] when it holds nothing, and marks the
    identifier in either case; it changes no other mark, nor the pool. *)
Theorem acquire_by_identifier (i : string) (e : Env)
    (st : ManagedRedisCluster) :
  i <> "" ->
  exists st',
    acquire (Some i) e st = Return (JsMap.get (pool st) i) st'
    /\ JsSet.has (poolUsed st') (JString i) = true
    /\ (forall y, strict_eq y (JString i) = false ->
                  JsSet.has (poolUsed st') y = JsSet.has (poolUsed st) y)
    /\ frame st' = frame st.
Proof.
  intros Hi; unfold acquire.
  destruct i as [|a i]; [congruence|]; simpl.
  eexists; split; [reflexivity|]; simpl; repeat apply conj; auto.
  - apply has_add_string.
  - intros y Hy; now apply has_add_other.
Qed.

Lemma acquire_by_identifier_witness :
  exists st',
    acquire (Some "no-such-client") (at_time 2000)
            (constructor (options 1 10 600000) (draw 1000))
    = Return None st'
    /\ JsSet.has (poolUsed st') (JString "no-such-client") = true.
Proof.
  destruct (acquire_by_identifier "no-such-client" (at_time 2000)
              (constructor (options 1 10 600000) (draw 1000)))
    as (st' & Ha & Hm & _).
  - discriminate.
  - exists st'; split; [exact Ha | exact Hm].
Defined.

(** X6.  In a coherent pool, checking out a client by an identifier that
    was not marked and releasing the client returned gives back the state
    one started from. *)
Theorem checkout_then_release (i : string) (c : nat) (e : Env)
    (st : ManagedRedisCluster) :
  coherent st ->
  i <> "" ->
  JsMap.get (pool st) i = Some c ->
  JsSet.has (poolUsed st) (JString i) = false ->
  exists st',
    acquire (Some i) e st = Return (Some c) st'
    /\ in_use st' c = true
    /\ release c st' = st.
Proof.
  intros [_ _ Hn] Hi Hg Hu.
  destruct (Hn i c (get_in _ _ _ Hg)) as [_ Hname].
  unfold acquire.
  destruct i as [|a i]; [congruence|]; simpl truthy; cbv iota zeta.
  eexists; split; [simpl; now rewrite Hg|].
  unfold in_use, release, deref in *; simpl; rewrite Hname.
  split; [apply has_add_string|].
  rewrite delete_add_fresh by auto.
  now destruct st.
Qed.

Lemma checkout_then_release_witness :
  release 0 (state_of (acquire (Some "4242-1000-0") (at_time 2000)
                               (constructor (options 1 10 600000) (draw 1000))))
  = constructor (options 1 10 600000) (draw 1000).
Proof.
  destruct (checkout_then_release "4242-1000-0" 0 (at_time 2000)
              (constructor (options 1 10 600000) (draw 1000)))
    as (st' & Ha & _ & Hr).
  - apply (coherent_reachable byte_text any_op (options 1 10 600000) (draw 1000)).
    apply reach_constructor.
  - discriminate.
  - reflexivity.
  - reflexivity.
  - rewrite Ha; exact Hr.
Defined.

Lemma filter_twice {A} (f : A -> bool) (l : list A) :
  filter f (filter f l) = filter f l.
Proof.
  induction l as [|x l IH]; simpl; auto.
  destruct (f x) eqn:E; simpl; rewrite ?E, IH; auto.
Qed.

(** X7.  [release] clears the mark of the client's name and of nothing
    else, whether or not the name was marked, and releasing twice is
    releasing once. *)
Theorem release_clears_one_mark (c : nat) (st : ManagedRedisCluster) :
  in_use (release c st) c = false
  /\ (forall y, strict_eq y (JString (name (deref st c))) = false ->
                JsSet.has (poolUsed (release c st)) y
                = JsSet.has (poolUsed st) y)
  /\ release c (release c st) = release c st
  /\ frame (release c st) = frame st.
Proof.
  unfold in_use, release, deref; simpl; repeat apply conj; auto.
  - apply has_delete_same.
  - intros y Hy; now apply has_delete_other.
  - unfold with_poolUsed, JsSet.delete; simpl; now rewrite filter_twice.
Qed.

Lemma release_clears_one_mark_witness :
  let st := state_of (acquire (Some "4242-1000-1") (at_time 2000)
              (state_of (acquire (Some "4242-1000-0") (at_time 2000)
                 (constructor (options 2 10 600000) (draw 1000))))) in
  JsSet.has (poolUsed (release 0 st)) (JString "4242-1000-1") = true.
Proof.
  intros st.
  rewrite (proj1 (proj2 (release_clears_one_mark 0 st))
                 (JString "4242-1000-1") eq_refl).
  reflexivity.
Defined.

(** X8.  With identifiers only in the in-use set and a pool that is not
    empty, [acquire()] returns the client of the pool with the shortest
    queue, the one inserted first among equals, and leaves the pool as it
    is. *)
Theorem acquire_least_busy (e : Env) (st : ManagedRedisCluster) :
  no_objects (poolUsed st) ->
  pool st <> [] ->
  exists c st' before after,
    acquire None e st = Return (Some c) st'
    /\ JsMap.values (pool st) = before ++ c :: after
    /\ (forall x, In x before -> queue_length e c < queue_length e x)
    /\ (forall x, In x after -> queue_length e c <= queue_length e x)
    /\ pool st' = pool st.
Proof.
  intros Hn Hp.
  assert (Hl : clientList e st <> []).
  { destruct (pool st) as [|[k c] m] eqn:E; [congruence|].
    intros Hnil.
    assert (Hin : In c (clientList e st))
      by (apply clientList_nonempty; [auto | rewrite E; now left]).
    now rewrite Hnil in Hin. }
  destruct (acquire None e st) as [c st'|err st'] eqn:Ha.
  - destruct (acquire_auto_selects e st st' c Hl Ha) as (Hpool & x & -> & Hh & _).
    rewrite clientList_all in Hh by auto.
    destruct (hd_sort_by _ _ _ Hh) as (l1 & l2 & Hv & H1 & H2).
    exists x, st', l1, l2; auto.
  - apply acquire_throws in Ha as Ha'; destruct Ha' as [-> ->].
    apply acquire_throws_iff in Ha; destruct Ha; contradiction.
Qed.

Lemma acquire_least_busy_witness :
  exists st',
    acquire None (mkEnv 2000 (fun c => if Nat.eqb c 1 then 0 else 5) (draw 2000))
            (constructor (options 3 10 600000) (draw 1000))
    = Return (Some 1%nat) st'.
Proof.
  destruct (acquire_least_busy
              (mkEnv 2000 (fun c => if Nat.eqb c 1 then 0 else 5) (draw 2000))
              (constructor (options 3 10 600000) (draw 1000)))
    as (c & st' & l1 & l2 & Ha & _).
  - intros x; reflexivity.
  - discriminate.
  - exists st'; rewrite Ha; do 2 f_equal.
    vm_compute in Ha; now injection Ha.
Defined.

(** X9.  On an empty pool [acquire()] opens one client when [maxPool] is
    positive, marks its name and returns it; otherwise it throws and
    leaves the state as it is. *)
Theorem acquire_on_empty_pool (e : Env) (st : ManagedRedisCluster) :
  pool st = [] ->
  (0 < maxPool st ->
   exists st',
     acquire None e st = Return (Some (List.length (heap st))) st'
     /\ pool st' = [(uniqueID (fresh e 0%nat), List.length (heap st))]
     /\ name (deref st' (List.length (heap st))) = uniqueID (fresh e 0%nat)
     /\ in_use st' (List.length (heap st)) = true)
  /\ (maxPool st <= 0 -> acquire None e st = Throw AllBusy st).
Proof.
  intros Hp; unfold acquire, clientList; simpl; rewrite Hp; simpl.
  unfold JsMap.size; simpl; split; intros Hm.
  - apply Z.ltb_lt in Hm; rewrite Hm.
    eexists; split; [simpl; now rewrite String.eqb_refl|].
    unfold in_use, deref; simpl.
    rewrite app_nth2, Nat.sub_diag by lia; simpl.
    repeat split; apply has_add_string.
  - apply Z.ltb_ge in Hm; now rewrite Hm.
Qed.

Lemma acquire_on_empty_pool_witness :
  acquire None (at_time 2000) (constructor (options 0 0 600000) (draw 1000))
  = Throw AllBusy (constructor (options 0 0 600000) (draw 1000)).
Proof.
  apply (proj2 (acquire_on_empty_pool (at_time 2000)
                  (constructor (options 0 0 600000) (draw 1000)) eq_refl)).
  simpl; lia.
Defined.

Lemma size_acquire (id : option string) (e : Env)
    (st : ManagedRedisCluster) :
  let st' := state_of (acquire id e st) in
  JsMap.size (pool st) <= JsMap.size (pool st')
  /\ JsMap.size (pool st') <= JsMap.size (pool st) + 1
  /\ JsMap.size (pool st') <= Z.max (JsMap.size (pool st)) (maxPool st).
Proof.
  unfold acquire, JsMap.size.
  destruct (truthy id); simpl; [lia|].
  destruct (clientList e st); simpl; [|lia].
  destruct (Z.of_nat (List.length (pool st)) <? maxPool st) eqn:E; simpl;
    [|lia].
  apply Z.ltb_lt in E; rewrite length_set.
  destruct (JsMap.has (pool st) (uniqueID (fresh e 0%nat))); lia.
Qed.

(** X10.  [acquire] never removes a client and never opens one in a pool
    that has [maxPool] clients or more: the pool keeps its size or, below
    [maxPool], grows by one. *)
Theorem acquire_respects_maxPool (id : option string) (e : Env)
    (st : ManagedRedisCluster) :
  let st' := state_of (acquire id e st) in
  JsMap.size (pool st) <= JsMap.size (pool st')
  /\ JsMap.size (pool st') <= JsMap.size (pool st) + 1
  /\ JsMap.size (pool st') <= Z.max (JsMap.size (pool st)) (maxPool st).
Proof.
  unfold acquire, JsMap.size.
  destruct (truthy id); simpl; [lia|].
  destruct (clientList e st); simpl; [|lia].
  destruct (Z.of_nat (List.length (pool st)) <? maxPool st) eqn:E; simpl;
    [|lia].
  apply Z.ltb_lt in E; rewrite length_set.
  destruct (JsMap.has (pool st) (uniqueID (fresh e 0%nat))); lia.
Qed.

(** ** The sweep *)

Lemma field_update_nth {B} (g : fastRedis -> B) (f : fastRedis -> fastRedis)
    (h : list fastRedis) (m n : nat) :
  (forall c, g (f c) = g c) ->
  g (nth n (update_nth m f h) no_client) = g (nth n h no_client).
Proof.
  intros Hf; revert m n; induction h as [|x h IH]; intros [|m] [|n]; simpl;
    auto.
Qed.

Lemma nth_update_nth_same {A} (f : A -> A) (l : list A) (n : nat) (d : A) :
  (n < List.length l)%nat -> nth n (update_nth n f l) d = f (nth n l d).
Proof.
  revert n; induction l as [|x l IH]; intros [|n]; simpl; intros H;
    try lia; auto.
  apply IH; lia.
Qed.

Lemma nth_update_nth_other {A} (f : A -> A) (l : list A) (m n : nat) (d : A) :
  n <> m -> nth n (update_nth m f l) d = nth n l d.
Proof.
  revert m n; induction l as [|x l IH]; intros [|m] [|n] H; simpl; auto;
    try congruence.
Qed.

Lemma evict_one_cases (t : Z) (c : nat) (st : ManagedRedisCluster) :
  evict_one t c st = st
  \/ (idle t st c = true
      /\ minPool st < JsMap.size (pool st)
      /\ designated st c = false
      /\ evict_one t c st
         = with_pool (JsMap.delete (pool st) (name (deref st c)))
                     (modify c end_client st)).
Proof.
  unfold evict_one, idle, designated.
  destruct (t - lastUsedTime (deref st c) >=? poolTTL st); simpl; auto.
  destruct (JsMap.size (pool st) >? minPool st) eqn:E; simpl; auto.
  destruct (String.eqb (name (deref st c)) (poolUsedPS st)); simpl; auto.
  apply Z.gtb_lt in E; right; auto.
Qed.

Lemma evict_one_facts (t : Z) (c : nat) (st : ManagedRedisCluster) :
  let st' := evict_one t c st in
  (minPool st', poolTTL st', poolUsedPS st', poolUsed st')
  = (minPool st, poolTTL st, poolUsedPS st, poolUsed st)
  /\ Z.min (JsMap.size (pool st)) (minPool st) <= JsMap.size (pool st')
  /\ JsMap.size (pool st') <= JsMap.size (pool st)
  /\ JsMap.get (pool st') (poolUsedPS st) = JsMap.get (pool st) (poolUsedPS st)
  /\ (forall kv, In kv (pool st') -> In kv (pool st)).
Proof.
  destruct (evict_one_cases t c st) as [->|(_ & Hs & Hd & ->)]; simpl.
  - repeat split; auto; lia.
  - unfold designated in Hd; apply String.eqb_neq in Hd.
    pose proof (length_delete (pool st) (name (deref st c))).
    pose proof (length_pool_delete_le := in_delete (pool st) (name (deref st c))).
    repeat split; auto.
    + unfold JsMap.size in *; lia.
    + unfold JsMap.size.
      destruct (JsMap.has (pool st) (name (deref st c))) eqn:E.
      * apply length_delete_present in E; lia.
      * rewrite delete_absent by auto; lia.
    + apply get_delete_other; congruence.
Qed.

Lemma evict_loop_facts (t : Z) (entries : list (string * nat))
    (st : ManagedRedisCluster) :
  let st' := evict_loop t entries st in
  (minPool st', poolTTL st', poolUsedPS st', poolUsed st')
  = (minPool st, poolTTL st, poolUsedPS st, poolUsed st)
  /\ Z.min (JsMap.size (pool st)) (minPool st) <= JsMap.size (pool st')
  /\ JsMap.size (pool st') <= JsMap.size (pool st)
  /\ JsMap.get (pool st') (poolUsedPS st) = JsMap.get (pool st) (poolUsedPS st)
  /\ (forall kv, In kv (pool st') -> In kv (pool st)).
Proof.
  revert st; induction entries as [|[k c] l IH]; intros st; simpl.
  - repeat split; auto; lia.
  - destruct (JsMap.has (pool st) k); [|apply IH].
    destruct (evict_one_facts t c st) as (Hc & H1 & H2 & H3 & H4).
    destruct (IH (evict_one t c st)) as (Hc' & H1' & H2' & H3' & H4').
    injection Hc as Em Et Ep Eu.
    rewrite Em in H1'; rewrite Ep in H3'.
    repeat split; auto; try lia.
    + now rewrite Hc', Em, Et, Ep, Eu.
    + congruence.
Qed.

Lemma evict_loop_full (t : Z) (entries : list (string * nat))
    (st : ManagedRedisCluster) :
  JsMap.size (pool st) <= minPool st -> evict_loop t entries st = st.
Proof.
  intros H; induction entries as [|[k c] l IH]; simpl; auto.
  destruct (JsMap.has (pool st) k); auto.
  destruct (evict_one_cases t c st) as [->|(_ & Hs & _)]; [auto|lia].
Qed.

Lemma evict_loop_recent (t : Z) (entries : list (string * nat))
    (st : ManagedRedisCluster) :
  (forall c, In c (JsMap.values entries) -> idle t st c = false) ->
  evict_loop t entries st = st.
Proof.
  induction entries as [|[k c] l IH]; simpl; intros H; auto.
  assert (Hc : evict_one t c st = st).
  { destruct (evict_one_cases t c st) as [->|(Hi & _)]; auto.
    rewrite H in Hi by auto; discriminate. }
  rewrite Hc; destruct (JsMap.has (pool st) k); auto.
Qed.

(** X11.  A sweep only removes clients, never takes the pool below
    [minPool], and leaves the binding of the designated subscriber, the
    in-use set and the configuration as they are. *)
Theorem evict_keeps_minimum_and_subscriber (e : Env)
    (st : ManagedRedisCluster) :
  let st' := evict e st in
  Z.min (JsMap.size (pool st)) (minPool st) <= JsMap.size (pool st')
  /\ JsMap.size (pool st') <= JsMap.size (pool st)
  /\ (forall kv, In kv (pool st') -> In kv (pool st))
  /\ JsMap.get (pool st') (poolUsedPS st) = JsMap.get (pool st) (poolUsedPS st)
  /\ (minPool st', poolTTL st', poolUsedPS st', poolUsed st')
     = (minPool st, poolTTL st, poolUsedPS st, poolUsed st).
Proof.
  destruct (evict_loop_facts (now e) (pool st) st) as (H0 & H1 & H2 & H3 & H4).
  unfold evict; repeat split; auto.
Qed.

Lemma evict_keeps_minimum_and_subscriber_witness :
  let st := exec byte_text (OpSubscribe ["a.*"] (at_time 2000))
              (exec byte_text
                 (OpClientError 0 (JError "ECONNRESET") (at_time 1500))
                 (constructor (options 2 10 1000) (draw 1000))) in
  JsMap.get (pool (evict (at_time 9000) st)) "4242-1000-1" = Some 1%nat.
Proof.
  intros st.
  rewrite <- (eq_refl : poolUsedPS st = "4242-1000-1").
  rewrite (proj1 (proj2 (proj2 (proj2
             (evict_keeps_minimum_and_subscriber (at_time 9000) st))))).
  reflexivity.
Defined.

(** X12.  A sweep changes nothing when the pool has [minPool] clients or
    fewer, and nothing when no client of the pool has been idle for the
    TTL. *)
Theorem evict_without_effect (e : Env) (st : ManagedRedisCluster) :
  JsMap.size (pool st) <= minPool st
  \/ (forall c, In c (JsMap.values (pool st)) -> idle (now e) st c = false) ->
  evict e st = st.
Proof.
  intros [H|H]; unfold evict.
  - now apply evict_loop_full.
  - now apply evict_loop_recent.
Qed.

Lemma evict_without_effect_witness :
  evict (at_time 9000) (constructor (options 2 10 1000) (draw 1000))
  = constructor (options 2 10 1000) (draw 1000).
Proof.
  apply evict_without_effect; left; vm_compute; discriminate.
Defined.

Lemma idle_modify_end (t : Z) (r c : nat) (st : ManagedRedisCluster) :
  idle t (modify r end_client st) c = idle t st c.
Proof.
  unfold idle, deref, modify; simpl.
  now rewrite (field_update_nth lastUsedTime).
Qed.

Lemma designated_modify_end (r c : nat) (st : ManagedRedisCluster) :
  designated (modify r end_client st) c = designated st c.
Proof.
  unfold designated, deref, modify; simpl.
  now rewrite (field_update_nth name).
Qed.

(** An ended client stays ended. *)
Lemma ended_evict_loop (t : Z) (entries : list (string * nat))
    (st : ManagedRedisCluster) (c : nat) :
  (c < List.length (heap st))%nat /\ ended (deref st c) = true ->
  (c < List.length (heap (evict_loop t entries st)))%nat
  /\ ended (deref (evict_loop t entries st) c) = true.
Proof.
  apply (kept_evict_loop
           (fun s => (c < List.length (heap s))%nat /\ ended (deref s c) = true)).
  - intros s s' [= _ _ _ _ Hh]; unfold deref; now rewrite Hh.
  - intros r s [H1 H2]; unfold deref, modify in *; simpl.
    rewrite length_update_nth; split; auto.
    destruct (Nat.eq_dec r c) as [->|Hne].
    + rewrite nth_update_nth_same by auto; simpl; auto.
    + rewrite nth_update_nth_other by auto; auto.
  - intros k s [H1 H2]; auto.
Qed.

Lemma evict_loop_oldest (t : Z) (entries : list (string * nat))
    (st : ManagedRedisCluster) :
  coherent st ->
  pool st = entries ->
  (forall c, In c (JsMap.values entries) ->
             idle t st c = true /\ designated st c = false) ->
  let n := Z.to_nat (Z.of_nat (List.length entries) - minPool st) in
  pool (evict_loop t entries st) = skipn n entries
  /\ (forall c, In c (JsMap.values (firstn n entries)) ->
                ended (deref (evict_loop t entries st) c) = true).
Proof.
  revert st; induction entries as [|[k c] rest IH]; intros st Hco Hp Hall.
  - simpl; rewrite skipn_nil, firstn_nil; split; [auto|intros ? []].
  - cbv zeta; simpl evict_loop.
    assert (Hk : JsMap.has (pool st) k = true)
      by (rewrite Hp; unfold JsMap.has; simpl; now rewrite String.eqb_refl).
    rewrite Hk.
    destruct (Hall c (or_introl eq_refl)) as [Hi Hd].
    destruct Hco as [Hc1 Hc2 Hc3].
    destruct (Hc3 k c) as [Hv Hn]; [rewrite Hp; now left|].
    destruct (evict_one_cases t c st) as [E|(_ & Hs & _ & E)].
    + (* the pool is at its minimum *)
      assert (Hfull : JsMap.size (pool st) <= minPool st).
      { unfold evict_one in E; fold (idle t st c) in E; rewrite Hi in E.
        unfold designated in Hd; rewrite Hd in E; simpl in E.
        destruct (JsMap.size (pool st) >? minPool st) eqn:G.
        - apply (f_equal (fun s => List.length (pool s))) in E; simpl in E.
          rewrite Hn, Hp in E; simpl in E.
          rewrite String.eqb_refl in E; lia.
        - rewrite Z.gtb_ltb in G; apply Z.ltb_ge in G; lia. }
      rewrite E, evict_loop_full by auto.
      unfold JsMap.size in Hfull; rewrite Hp in Hfull.
      replace (Z.to_nat _) with 0%nat by lia.
      simpl; split; [auto|intros ? []].
    + rewrite E.
      set (st1 := with_pool _ (modify c end_client st)).
      assert (Hp1 : pool st1 = rest).
      { unfold st1; simpl; rewrite Hn, Hp; simpl.
        now rewrite String.eqb_refl. }
      assert (Hco1 : coherent st1).
      { apply (coherent_delete (name (deref st c)) (modify c end_client st)).
        apply coherent_modify; auto; now constructor. }
      assert (Hall1 : forall x, In x (JsMap.values rest) ->
                                idle t st1 x = true /\ designated st1 x = false).
      { intros x Hx.
        destruct (Hall x (or_intror Hx)) as [Hxi Hxd].
        unfold st1; split.
        - change (idle t (modify c end_client st) x = true).
          now rewrite idle_modify_end.
        - change (designated (modify c end_client st) x = false).
          now rewrite designated_modify_end. }
      destruct (IH st1 Hco1 Hp1 Hall1) as [IH1 IH2].
      change (minPool st1) with (minPool st) in IH1, IH2.
      unfold JsMap.size in Hs; rewrite Hp in Hs; simpl List.length in *.
      replace (Z.to_nat (Z.of_nat (S (List.length rest)) - minPool st))
        with (S (Z.to_nat (Z.of_nat (List.length rest) - minPool st))) by lia.
      simpl; split; auto.
      intros x [<-|Hx]; auto.
      apply ended_evict_loop; unfold st1, deref; simpl.
      rewrite length_update_nth; split; auto.
      now rewrite nth_update_nth_same.
Qed.

(** X13.  When every client of a coherent pool has been idle for the TTL
    and none is the designated subscriber, one sweep ends and removes the
    clients in the order of their insertion until [minPool] are left: the
    pool that remains is the old one less its first [|Pool| - minPool]
    entries (all of it when [minPool <= 0]). *)
Theorem evict_removes_oldest_first (e : Env) (st : ManagedRedisCluster) :
  coherent st ->
  (forall c, In c (JsMap.values (pool st)) ->
             idle (now e) st c = true /\ designated st c = false) ->
  let n := Z.to_nat (JsMap.size (pool st) - minPool st) in
  pool (evict e st) = skipn n (pool st)
  /\ (forall c, In c (JsMap.values (firstn n (pool st))) ->
                ended (deref (evict e st) c) = true)
  /\ (0 <= minPool st <= JsMap.size (pool st) ->
      JsMap.size (pool (evict e st)) = minPool st).
Proof.
  intros Hco Hall; cbv zeta.
  destruct (evict_loop_oldest (now e) (pool st) st Hco eq_refl Hall)
    as [H1 H2].
  unfold evict, JsMap.size in *; repeat split; auto.
  intros Hm; rewrite H1, length_skipn; lia.
Qed.

Lemma evict_removes_oldest_first_witness :
  let st := exec byte_text
              (OpClientError 0 (JError "ECONNRESET") (at_time 2000))
              (constructor (options 2 10 1000) (draw 1000)) in
  pool st = [("4242-1000-1", 1%nat); ("4242-2000-0", 2%nat);
             ("4242-2000-1", 3%nat)]
  /\ pool (evict (at_time 9000) st)
     = [("4242-2000-0", 2%nat); ("4242-2000-1", 3%nat)].
Proof.
  intros st; split; [reflexivity|].
  apply (proj1 (evict_removes_oldest_first (at_time 9000) st
                  (coherent_reachable byte_text any_op (options 2 10 1000)
                     (draw 1000) st
                     ltac:(repeat constructor))
                  ltac:(vm_compute; intuition (subst; auto)))).
Defined.

(** ** After a fatal error *)

Lemma has_delete_false {V} (m : JsMap.t V) (k k' : string) :
  JsMap.has m k' = false -> JsMap.has (JsMap.delete m k) k' = false.
Proof.
  intros H.
  destruct (JsMap.has (JsMap.delete m k) k') eqn:E; auto.
  apply has_iff_in_keys, keys_delete, has_iff_in_keys in E; congruence.
Qed.

Lemma onClientError_unfold (c : nat) (error : jsval) (e : Env)
    (st : ManagedRedisCluster) :
  let st3 := with_pool (JsMap.delete (pool st) (name (deref st c)))
               (modify c removeAllListeners
                  (tell (Emit "error" [JString (name (deref st c)); error])
                        st)) in
  onClientError c error e st
  = if JsMap.size (pool st3) <? minPool st
    then create_loop (Z.to_nat (minPool st)) 0 (fresh e) st3
    else st3.
Proof.
  unfold onClientError; cbv zeta.
  set (st2 := modify c removeAllListeners _).
  assert (Hn : name (deref st2 c) = name (deref st c))
    by (unfold st2; now rewrite name_modify).
  now rewrite Hn.
Qed.

Lemma onClientError_facts (c : nat) (error : jsval) (e : Env)
    (st : ManagedRedisCluster) :
  let left := JsMap.delete (pool st) (name (deref st c)) in
  let st' := onClientError c error e st in
  log st' = log st ++ [Emit "error" [JString (name (deref st c)); error]]
  /\ (poolUsed st', poolUsedPS st', PSTopics st')
     = (poolUsed st, poolUsedPS st, PSTopics st)
  /\ ((c < List.length (heap st))%nat -> listeners (deref st' c) = false)
  /\ (JsMap.size left < minPool st ->
      List.length (heap st')
      = (List.length (heap st) + Z.to_nat (minPool st))%nat
      /\ JsMap.size left <= JsMap.size (pool st')
         <= JsMap.size left + minPool st)
  /\ (minPool st <= JsMap.size left ->
      pool st' = left /\ List.length (heap st') = List.length (heap st)).
Proof.
  cbv zeta; rewrite onClientError_unfold; cbv zeta.
  set (st3 := with_pool _ _).
  assert (Hl : (c < List.length (heap st))%nat ->
               (c < List.length (heap st3))%nat
               /\ listeners (deref st3 c) = false).
  { intros Hc; unfold st3, deref; simpl.
    rewrite length_update_nth, nth_update_nth_same by auto; auto. }
  destruct (JsMap.size (pool st3) <? minPool st) eqn:E.
  - apply Z.ltb_lt in E.
    pose proof (heap_poolUsed_create_loop (Z.to_nat (minPool st)) 0 (fresh e) st3)
      as Hc; injection Hc as _ _ Hu Hlog.
    pose proof (pubsub_create_loop (Z.to_nat (minPool st)) 0 (fresh e) st3)
      as Hp; unfold pubsub in Hp; injection Hp as Ht Hd.
    repeat apply conj; auto.
    + now rewrite Hu, Hd, Ht.
    + intros Hc; destruct (Hl Hc) as [Hc3 Hf].
      apply (kept_create_loop
               (fun s => (c < List.length (heap s))%nat
                         /\ listeners (deref s c) = false)); auto.
      intros f s [H1 H2]; split; [simpl; rewrite length_app; lia|].
      now rewrite deref_create_old.
    + intros _; rewrite heap_create_loop; simpl.
      rewrite length_update_nth; split; auto.
      pose proof (length_pool_create_loop_le (Z.to_nat (minPool st)) 0
                    (fresh e) st3) as Hle.
      unfold JsMap.size in *; simpl in *; lia.
    + intros Hge; simpl in E; lia.
  - apply Z.ltb_ge in E; repeat apply conj; auto.
    + intros Hc; now apply Hl.
    + intros Hlt; simpl in E; lia.
    + intros _; simpl; now rewrite length_update_nth.
Qed.

(** X14.  On a manager without an ['error'] listener the handler of a
    fatal error throws at once and changes nothing.  On a manager with one
    it emits [error] with the client's name, detaches the client's
    listeners and deletes its key; it leaves the in-use set, the
    designation and the topics as they are, also when the failed client is
    marked or designated.  When fewer than [minPool] clients are left it
    opens [minPool] clients; otherwise none. *)
Theorem onClientError_replenishes (listened : bool) (c : nat) (error : jsval)
    (e : Env) (st : ManagedRedisCluster) :
  let left := JsMap.delete (pool st) (name (deref st c)) in
  (listened = false ->
   handleClientError listened c error e st = Throw UnhandledError st)
  /\ (listened = true ->
      exists st',
        handleClientError listened c error e st = Return tt st'
        /\ log st'
           = log st ++ [Emit "error" [JString (name (deref st c)); error]]
        /\ (poolUsed st', poolUsedPS st', PSTopics st')
           = (poolUsed st, poolUsedPS st, PSTopics st)
        /\ ((c < List.length (heap st))%nat -> listeners (deref st' c) = false)
        /\ (JsMap.size left < minPool st ->
            List.length (heap st')
            = (List.length (heap st) + Z.to_nat (minPool st))%nat
            /\ JsMap.size left <= JsMap.size (pool st')
               <= JsMap.size left + minPool st)
        /\ (minPool st <= JsMap.size left ->
            pool st' = left
            /\ List.length (heap st') = List.length (heap st))).
Proof.
  cbv zeta; split; intros ->; [reflexivity|].
  exists (onClientError c error e st); split; [reflexivity|].
  rewrite onClientError_unfold; cbv zeta.
  set (st3 := with_pool _ _).
  assert (Hl : (c < List.length (heap st))%nat ->
               (c < List.length (heap st3))%nat
               /\ listeners (deref st3 c) = false).
  { intros Hc; unfold st3, deref; simpl.
    rewrite length_update_nth, nth_update_nth_same by auto; auto. }
  destruct (JsMap.size (pool st3) <? minPool st) eqn:E.
  - apply Z.ltb_lt in E.
    pose proof (heap_poolUsed_create_loop (Z.to_nat (minPool st)) 0 (fresh e) st3)
      as Hc; injection Hc as _ _ Hu Hlog.
    pose proof (pubsub_create_loop (Z.to_nat (minPool st)) 0 (fresh e) st3)
      as Hp; unfold pubsub in Hp; injection Hp as Ht Hd.
    repeat apply conj; auto.
    + now rewrite Hu, Hd, Ht.
    + intros Hc; destruct (Hl Hc) as [Hc3 Hf].
      apply (kept_create_loop
               (fun s => (c < List.length (heap s))%nat
                         /\ listeners (deref s c) = false)); auto.
      intros f s [H1 H2]; split; [simpl; rewrite length_app; lia|].
      now rewrite deref_create_old.
    + intros _; rewrite heap_create_loop; simpl.
      rewrite length_update_nth; split; auto.
      pose proof (length_pool_create_loop_le (Z.to_nat (minPool st)) 0
                    (fresh e) st3) as Hle.
      unfold JsMap.size in *; simpl in *; lia.
    + intros Hge; simpl in E; lia.
  - apply Z.ltb_ge in E; repeat apply conj; auto.
    + intros Hc; now apply Hl.
    + intros Hlt; simpl in E; lia.
    + intros _; simpl; now rewrite length_update_nth.
Qed.

Lemma onClientError_replenishes_witness :
  exists st',
    handleClientError true 1 (JError "ECONNRESET") (at_time 2000)
                      (constructor (options 3 10 600000) (draw 1000))
    = Return tt st'
    /\ List.length (heap st') = 6%nat.
Proof.
  destruct (proj2 (onClientError_replenishes true 1 (JError "ECONNRESET")
                     (at_time 2000)
                     (constructor (options 3 10 600000) (draw 1000)))
                  eq_refl)
    as (st' & Hh & _ & _ & _ & Hg & _).
  exists st'; split; [exact Hh|].
  apply (proj1 (Hg ltac:(vm_compute; reflexivity))).
Defined.

(** X15.  On a manager with an ['error'] listener, when the identifiers
    drawn for the replacements are pairwise distinct and none is a key of
    the pool, the handler leaves the clients that remained plus [minPool]
    new ones if these were fewer than [minPool], and only the clients that
    remained otherwise: never fewer than [minPool].  Without a listener it
    throws and the pool stays as it was. *)
Theorem onClientError_restores_minimum (listened : bool) (c : nat)
    (error : jsval) (e : Env) (st : ManagedRedisCluster) :
  distinct_ids (Z.to_nat (minPool st)) (fresh e) ->
  (forall j, (j < Z.to_nat (minPool st))%nat ->
             JsMap.has (pool st) (uniqueID (fresh e j)) = false) ->
  let left := JsMap.delete (pool st) (name (deref st c)) in
  (listened = false ->
   handleClientError listened c error e st = Throw UnhandledError st)
  /\ (listened = true ->
      exists st',
        handleClientError listened c error e st = Return tt st'
        /\ JsMap.size (pool st')
           = (if JsMap.size left <? minPool st
              then JsMap.size left + minPool st else JsMap.size left)
        /\ minPool st <= JsMap.size (pool st')).
Proof.
  intros Hd Hf; cbv zeta; split; intros ->; [reflexivity|].
  exists (onClientError c error e st); split; [reflexivity|].
  rewrite onClientError_unfold; cbv zeta.
  set (st3 := with_pool _ _).
  change (pool st3) with (JsMap.delete (pool st) (name (deref st c))).
  destruct (JsMap.size (JsMap.delete (pool st) (name (deref st c)))
            <? minPool st) eqn:E.
  - apply Z.ltb_lt in E.
    unfold JsMap.size in *.
    rewrite length_pool_create_loop_fresh; auto.
    + simpl; lia.
    + intros j Hj; simpl; apply has_delete_false, Hf; lia.
  - apply Z.ltb_ge in E; simpl; split; [reflexivity|lia].
Qed.

Lemma onClientError_restores_minimum_witness :
  exists st',
    handleClientError true 1 (JError "ECONNRESET") (at_time 2000)
                      (constructor (options 3 10 600000) (draw 1000))
    = Return tt st'
    /\ JsMap.size (pool st') = 5.
Proof.
  destruct (proj2 (onClientError_restores_minimum true 1 (JError "ECONNRESET")
                     (at_time 2000)
                     (constructor (options 3 10 600000) (draw 1000))
                     ltac:(unfold distinct_ids; simpl;
                           repeat constructor; simpl; intuition discriminate)
                     ltac:(intros [|[|[|j]]] Hj;
                           [reflexivity | reflexivity | reflexivity
                           | simpl in Hj; lia]))
                  eq_refl)
    as (st' & Hh & Hs & _).
  exists st'; split; [exact Hh | exact Hs].
Defined.

(** ** Clients that left the pool *)

Lemma gone_kept (a85 : Codec) (c : nat) (ops : list op)
    (st : ManagedRedisCluster) :
  (c < List.length (heap st))%nat /\ ~ In c (JsMap.values (pool st)) ->
  (c < List.length (heap (exec_ops a85 ops st)))%nat
  /\ ~ In c (JsMap.values (pool (exec_ops a85 ops st))).
Proof.
  apply (kept_exec_ops a85
           (fun s => (c < List.length (heap s))%nat
                     /\ ~ In c (JsMap.values (pool s)))).
  - intros s s' [= _ _ _ Hp Hh]; now rewrite Hp, Hh.
  - intros r t s [H1 H2]; simpl; now rewrite length_update_nth.
  - intros r s [H1 H2]; simpl; now rewrite length_update_nth.
  - intros r s [H1 H2]; simpl; now rewrite length_update_nth.
  - intros f s [H1 H2]; simpl; rewrite length_app; split; [lia|].
    intros H; apply values_set in H; destruct H; [lia|auto].
  - intros k s [H1 H2]; simpl; split; auto.
    intros H; apply values_delete in H; auto.
Qed.

(** X16.  A client object that is not in the pool never comes back to it:
    whatever operations follow, the pool holds only the clients it held
    and the ones opened since. *)
Theorem removed_client_never_returns (a85 : Codec) (c : nat)
    (ops : list op) (st : ManagedRedisCluster) :
  (c < List.length (heap st))%nat ->
  ~ In c (JsMap.values (pool st)) ->
  ~ In c (JsMap.values (pool (exec_ops a85 ops st))).
Proof.
  intros H1 H2.
  apply (kept_exec_ops a85
           (fun s => (c < List.length (heap s))%nat
                     /\ ~ In c (JsMap.values (pool s)))); auto.
  - intros s s' [= _ _ _ Hp Hh]; now rewrite Hp, Hh.
  - intros r t s [G1 G2]; simpl; now rewrite length_update_nth.
  - intros r s [G1 G2]; simpl; now rewrite length_update_nth.
  - intros r s [G1 G2]; simpl; now rewrite length_update_nth.
  - intros f s [G1 G2]; simpl; rewrite length_app; split; [lia|].
    intros H; apply values_set in H; destruct H; [lia|auto].
  - intros k s [G1 G2]; simpl; split; auto.
    intros H; apply values_delete in H; auto.
Qed.

Lemma removed_client_never_returns_witness :
  let st := evict (at_time 9000)
              (exec byte_text
                 (OpClientError 0 (JError "ECONNRESET") (at_time 2000))
                 (constructor (options 2 10 1000) (draw 1000))) in
  ~ In 1%nat
       (JsMap.values
          (pool (exec_ops byte_text
                   [OpRun [Text "PING"] (at_time 9001) None;
                    OpClientError 2 (JError "EPIPE") (at_time 9002)] st))).
Proof.
  intros st; apply removed_client_never_returns.
  - vm_compute; lia.
  - vm_compute; intuition discriminate.
Defined.

(** X17.  When the handler of a client's fatal error has returned, which
    it does on a manager with an ['error'] listener, the client of a
    coherent pool is out of the pool, then and in every later state: no
    [run], [subscribe] or [unsubscribe] is ever served by it again. *)
Theorem failed_client_leaves_for_good (a85 : Codec) (listened : bool)
    (c : nat) (error : jsval) (e : Env) (ops : list op)
    (st st1 : ManagedRedisCluster) :
  coherent st ->
  (c < List.length (heap st))%nat ->
  handleClientError listened c error e st = Return tt st1 ->
  ~ In c (JsMap.values (pool (exec_ops a85 ops st1))).
Proof.
  intros [H1 H2 H3] Hc Hh.
  destruct listened; [|discriminate].
  injection Hh as <-.
  apply gone_kept; rewrite onClientError_unfold; cbv zeta.
  set (st3 := with_pool _ _).
  assert (Hg : (c < List.length (heap st3))%nat
               /\ ~ In c (JsMap.values (pool st3))).
  { unfold st3; simpl; rewrite length_update_nth; split; auto.
    unfold JsMap.values; rewrite in_map_iff; intros [[k c'] [Hs Hin]].
    simpl in Hs; subst c'.
    apply in_delete in Hin as Hin'.
    destruct (H3 _ _ Hin') as [_ Hk]; subst k.
    apply in_get in Hin; [|now apply nodup_keys_delete].
    rewrite get_delete_same in Hin by auto; discriminate. }
  destruct (JsMap.size (pool st3) <? minPool st); auto.
  apply (kept_create_loop
           (fun s => (c < List.length (heap s))%nat
                     /\ ~ In c (JsMap.values (pool s)))); auto.
  intros f s [G1 G2]; simpl; rewrite length_app; split; [lia|].
  intros H; apply values_set in H; destruct H; [lia|auto].
Qed.

Lemma failed_client_leaves_for_good_witness :
  exists st1,
    handleClientError true 0 (JError "ECONNRESET") (at_time 2000)
                      (constructor (options 2 10 600000) (draw 1000))
    = Return tt st1
    /\ ~ In 0%nat
          (JsMap.values
             (pool (exec_ops byte_text
                      [OpRun [Text "PING"] (at_time 3000) None] st1))).
Proof.
  eexists; split; [reflexivity|].
  apply (failed_client_leaves_for_good byte_text true 0 (JError "ECONNRESET")
           (at_time 2000) [OpRun [Text "PING"] (at_time 3000) None]
           (constructor (options 2 10 600000) (draw 1000))).
  - apply (coherent_reachable byte_text any_op (options 2 10 600000) (draw 1000)).
    apply reach_constructor.
  - vm_compute; lia.
  - reflexivity.
Defined.

(** X18.  Once the handler of a client's fatal error has returned, which
    it does on a manager with an ['error'] listener, no event of that
    client reaches the manager any more: whatever operations follow, its
    [error], [connect], [ready], [disconnect] and [reconnecting] events
    change nothing and emit nothing. *)
Theorem failed_client_is_silent (a85 : Codec) (listened : bool) (c : nat)
    (error : jsval) (e : Env) (ops : list op) (x : op)
    (st st1 : ManagedRedisCluster) :
  (c < List.length (heap st))%nat ->
  lifecycle_op c x ->
  handleClientError listened c error e st = Return tt st1 ->
  exec a85 x (exec_ops a85 ops st1) = exec_ops a85 ops st1.
Proof.
  intros Hc Hx Hh.
  destruct listened; [|discriminate].
  injection Hh as <-.
  assert (Hs : listeners
                 (deref (exec_ops a85 ops (onClientError c error e st)) c)
               = false).
  { apply (kept_exec_ops a85
             (fun s => (c < List.length (heap s))%nat
                       /\ listeners (deref s c) = false)).
    - intros s s' [= _ _ _ _ Hh]; unfold deref; now rewrite Hh.
    - intros r t s [H1 H2]; unfold deref; simpl.
      rewrite length_update_nth; split; auto.
      destruct (Nat.eq_dec c r) as [->|Hne];
        [rewrite nth_update_nth_same | rewrite nth_update_nth_other]; auto.
    - intros r s [H1 H2]; unfold deref; simpl.
      rewrite length_update_nth; split; auto.
      destruct (Nat.eq_dec c r) as [->|Hne];
        [rewrite nth_update_nth_same | rewrite nth_update_nth_other]; auto.
    - intros r s [H1 H2]; unfold deref; simpl.
      rewrite length_update_nth; split; auto.
      destruct (Nat.eq_dec c r) as [->|Hne];
        [rewrite nth_update_nth_same | rewrite nth_update_nth_other]; auto.
    - intros f s [H1 H2]; split; [simpl; rewrite length_app; lia|].
      now rewrite deref_create_old.
    - intros k s [H1 H2]; auto.
    - destruct (onClientError_facts c error e st) as (_ & _ & Hl & Hg & Hk).
      split; [|now apply Hl].
      destruct (Z.lt_ge_cases
                  (JsMap.size (JsMap.delete (pool st) (name (deref st c))))
                  (minPool st)) as [G|G].
      + destruct (Hg G) as [-> _]; lia.
      + destruct (Hk G) as [_ ->]; lia. }
  destruct x; simpl in Hx; try contradiction; subst; simpl;
    unfold listening; now rewrite Hs.
Qed.

Lemma failed_client_is_silent_witness :
  exists st1,
    handleClientError true 0 (JError "ECONNRESET") (at_time 2000)
                      (constructor (options 2 10 600000) (draw 1000))
    = Return tt st1
    /\ let st' := exec_ops byte_text
                    [OpRun [Text "PING"] (at_time 3000) None] st1 in
       exec byte_text (OpClientError 0 (JError "again") (at_time 4000)) st'
       = st'.
Proof.
  eexists; split; [reflexivity|].
  apply (failed_client_is_silent byte_text true 0 (JError "ECONNRESET")
           (at_time 2000) [OpRun [Text "PING"] (at_time 3000) None]
           (OpClientError 0 (JError "again") (at_time 4000))
           (constructor (options 2 10 600000) (draw 1000))).
  - vm_compute; lia.
  - reflexivity.
  - reflexivity.
Defined.

(** ** What the facade leaves unmarked *)

Lemma bare_same (st st' : ManagedRedisCluster) :
  poolUsed st' = poolUsed st -> heap st' = heap st -> bare st -> bare st'.
Proof. intros Hu Hh [H1 H2]; constructor; now rewrite ?Hu, ?Hh. Qed.

Lemma bare_modify (r : nat) (f : fastRedis -> fastRedis)
    (st : ManagedRedisCluster) :
  (forall c, client_id (f c) = client_id c) -> bare st -> bare (modify r f st).
Proof.
  intros Hf [H1 H2]; constructor; simpl; auto.
  apply Forall_update_nth; auto.
  intros c; now rewrite Hf.
Qed.

Lemma bare_deref (st : ManagedRedisCluster) (c : nat) :
  bare st -> client_id (deref st c) = JUndefined.
Proof.
  intros [_ H]; unfold deref.
  destruct (nth_in_or_default c (heap st) no_client) as [Hin| ->]; auto.
  rewrite Forall_forall in H; now apply H.
Qed.

Lemma bare_add (s : JsSet.t) :
  Forall (eq JUndefined) s -> Forall (eq JUndefined) (JsSet.add s JUndefined).
Proof.
  intros H; unfold JsSet.add; destruct (JsSet.has s JUndefined); auto.
  apply Forall_app; auto.
Qed.

Lemma bare_release (c : nat) (st : ManagedRedisCluster) :
  bare st -> bare (release c st).
Proof.
  intros [H1 H2]; constructor; simpl; auto.
  unfold JsSet.delete; rewrite Forall_forall in *; intros v Hv.
  apply filter_In in Hv; apply H1, Hv.
Qed.

Lemma bare_create_loop (n i : nat) (fr : nat -> Fresh)
    (st : ManagedRedisCluster) :
  bare_draws fr -> bare st -> bare (create_loop n i fr st).
Proof.
  intros Hf; revert i st; induction n as [|n IH]; intros i st H; simpl; auto.
  apply IH; destruct H as [H1 H2]; constructor; simpl; auto.
  apply Forall_app; split; auto.
  constructor; simpl; auto.
Qed.

Lemma bare_plain (st : ManagedRedisCluster) : bare st -> plain st.
Proof.
  intros [H1 H2]; constructor.
  - eapply Forall_impl; [|exact H1]; now intros v <-.
  - eapply Forall_impl; [|exact H2]; simpl; now intros c ->.
Qed.

Lemma facade_plain (x : op) : facade_op x -> plain_op x.
Proof.
  assert (H : forall fr, bare_draws fr -> plain_draws fr)
    by (intros fr Hf i; now rewrite Hf).
  destruct x; simpl; auto.
  destruct id; [contradiction|auto].
Qed.

Lemma bare_acquire (e : Env) (st : ManagedRedisCluster) :
  steady st -> bare st ->
  exists c,
    acquire None e st = Return (Some c) (with_poolUsed (JsSet.add (poolUsed st) JUndefined) st).
Proof.
  intros Hs Hb.
  destruct (steady_acquire_returns e st Hs) as (c & _ & Ha).
  rewrite bare_deref in Ha by auto; eauto.
Qed.

Lemma bare_exec (a85 : Codec) (x : op) (st : ManagedRedisCluster) :
  facade_op x -> steady st -> bare st -> bare (exec a85 x st).
Proof.
  intros Hx Hs Hb.
  assert (Hacq : bare (with_poolUsed (JsSet.add (poolUsed st) JUndefined) st)).
  { destruct Hb; constructor; simpl; auto using bare_add. }
  destruct x; simpl in *.
  - destruct (bare_acquire e st Hs Hb) as (c & Ha).
    unfold run; rewrite Ha.
    assert (H2 : bare (tell (RawCallAsync c (map (encode a85) command))
                         (modify c (set_lastUsedTime (now e))
                            (with_poolUsed (JsSet.add (poolUsed st) JUndefined) st)))).
    { apply (bare_same (modify c (set_lastUsedTime (now e))
                          (with_poolUsed (JsSet.add (poolUsed st) JUndefined) st)));
        auto.
      apply bare_modify; auto. }
    destruct outcome as [[v|r]|]; simpl; auto.
    now apply bare_release.
  - destruct (bare_acquire e st Hs Hb) as (c & Ha).
    unfold subscribe; rewrite Ha; simpl.
    apply (bare_same (modify c (set_lastUsedTime (now e))
                        (with_poolUsed (JsSet.add (poolUsed st) JUndefined) st)));
      auto.
    apply bare_modify; auto.
  - destruct (bare_acquire e st Hs Hb) as (c & Ha).
    unfold unsubscribe; rewrite Ha.
    assert (H2 : bare (modify c (set_lastUsedTime (now e))
                         (with_poolUsed (JsSet.add (poolUsed st) JUndefined) st)))
      by (apply bare_modify; auto).
    cbv zeta.
    match goal with |- context [if ?b then _ else _] => destruct b end;
      destruct outcome as [[v|r]|]; simpl; revert H2; now apply bare_same.
  - unfold evict.
    destruct (evict_loop_facts (now e) (pool st) st) as (Hf & _).
    injection Hf as _ _ _ Hu.
    destruct Hb as [H1 H2]; constructor; [now rewrite Hu|].
    apply (kept_evict_loop
             (fun s => Forall (fun c => client_id c = JUndefined) (heap s)));
      auto.
    + intros s s' [= _ _ _ _ Hh]; now rewrite Hh.
    + intros r s H; simpl; apply Forall_update_nth; auto.
  - destruct id; [contradiction|].
    destruct (bare_acquire e st Hs Hb) as (c & Ha); rewrite Ha; simpl; auto.
  - now apply bare_release.
  - unfold listening; destruct (listeners _); auto.
    rewrite onClientError_unfold; cbv zeta.
    set (st3 := with_pool _ _).
    assert (H3 : bare st3).
    { apply (bare_same (modify client removeAllListeners st)); auto.
      apply bare_modify; auto. }
    destruct (JsMap.size (pool st3) <? minPool st); auto.
    now apply bare_create_loop.
  - unfold listening; destruct (listeners _); auto.
    revert Hb; now apply bare_same.
  - unfold listening; destruct (listeners _); auto.
    revert Hb; now apply bare_same.
  - unfold listening; destruct (listeners _); auto.
    revert Hb; now apply bare_same.
  - unfold listening; destruct (listeners _); auto.
    revert Hb; now apply bare_same.
  - unfold onPubsubMessage; destruct (last message JUndefined); simpl; auto.
    revert Hb; now apply bare_same.
Qed.

(** X19.  In a manager built with [minPool >= 1] over a driver whose
    objects have no [id] property, no sequence of [run], [subscribe],
    [unsubscribe], sweeps, releases and client events ever marks a client:
    the in-use set holds at most [undefined], and every client reads as
    free. *)
Theorem facade_never_marks_a_client (a85 : Codec) (o : Options)
    (fr : nat -> Fresh) (st : ManagedRedisCluster) :
  1 <= default 1 (o_minPool o) ->
  bare_draws fr ->
  reachable a85 facade_op o fr st ->
  Forall (eq JUndefined) (poolUsed st) /\ (forall c, in_use st c = false).
Proof.
  intros Hm Hf Hr.
  assert (H : steady st /\ bare st).
  { induction Hr as [|st x _ [IH1 IH2] Hx].
    - split.
      + apply steady_constructor; auto; intros i; now rewrite Hf.
      + unfold constructor; apply bare_create_loop; auto.
        constructor; constructor.
    - split; [apply steady_exec; auto; now apply facade_plain|].
      now apply bare_exec. }
  destruct H as [_ [Hu _]]; split; auto.
  intros c; unfold in_use, JsSet.has.
  induction Hu as [|v s <- _ IH]; simpl; auto.
Qed.

Lemma facade_never_marks_a_client_witness :
  in_use (exec byte_text (OpRun [Text "PING"] (at_time 2000) None)
               (constructor (options 1 10 600000) (draw 1000))) 0
  = false.
Proof.
  apply (facade_never_marks_a_client byte_text (options 1 10 600000)
           (draw 1000)).
  - simpl; lia.
  - intros i; reflexivity.
  - apply reach_exec; [apply reach_constructor | intros i; reflexivity].
Defined.

(** ** The size the pool keeps *)

Lemma pool_run (a85 : Codec) (command : list arg) (e : Env)
    (outcome : option settled) (st : ManagedRedisCluster) :
  pool (settle (run a85 command e st) outcome)
  = pool (state_of (acquire None e st)).
Proof.
  destruct (run a85 command e st) as [p st'|err st'] eqn:E.
  - destruct (run_returns _ _ _ _ _ _ E) as (c & st1 & k & Ha & -> & -> & Hr & Hf).
    rewrite Ha; destruct outcome as [[v|r]|]; simpl; rewrite ?Hf, ?Hr; auto.
  - destruct (run_throws _ _ _ _ _ _ E) as (-> & _ & ->).
    destruct outcome; reflexivity.
Qed.

Lemma pool_subscribe (topic : list string) (e : Env)
    (st : ManagedRedisCluster) :
  pool (state_of (subscribe topic e st))
  = pool (state_of (acquire None e st)).
Proof.
  destruct (subscribe topic e st) as [p st'|err st'] eqn:E.
  - destruct (subscribe_returns _ _ _ _ _ E)
      as (c & st1 & Ha & _ & _ & _ & _ & Hp & _).
    now rewrite Ha.
  - destruct (subscribe_throws _ _ _ _ _ E) as (-> & _ & ->); reflexivity.
Qed.

Lemma pool_unsubscribe (topic : list string) (e : Env)
    (outcome : option settled) (st : ManagedRedisCluster) :
  pool (settle (unsubscribe topic e st) outcome)
  = pool (state_of (acquire None e st)).
Proof.
  destruct (unsubscribe topic e st) as [p st'|err st'] eqn:E.
  - destruct (unsubscribe_returns _ _ _ _ _ E)
      as (c & st1 & k & Ha & -> & _ & _ & Hp & _ & _ & Hr & Hf).
    rewrite Ha; destruct outcome as [[v|r]|]; simpl; rewrite ?Hf, ?Hr; auto.
    simpl; destruct (_ <? _); auto.
  - destruct (unsubscribe_throws _ _ _ _ _ E) as (-> & _ & ->).
    destruct outcome; reflexivity.
Qed.

Lemma config_exec (a85 : Codec) (x : op) (st : ManagedRedisCluster) :
  (minPool (exec a85 x st), maxPool (exec a85 x st), poolTTL (exec a85 x st))
  = (minPool st, maxPool st, poolTTL st).
Proof.
  apply (kept_exec a85
           (fun s => (minPool s, maxPool s, poolTTL s)
                     = (minPool st, maxPool st, poolTTL st))); auto.
  intros s s' [= -> -> -> _ _]; auto.
Qed.

Lemma size_exec (a85 : Codec) (x : op) (st : ManagedRedisCluster) :
  JsMap.size (pool (exec a85 x st))
  <= Z.max (JsMap.size (pool st)) (Z.max (maxPool st) (2 * minPool st - 1)).
Proof.
  pose proof (size_acquire None) as Ha.
  destruct x; cbn [exec].
  - rewrite pool_run; specialize (Ha e st); simpl in Ha; lia.
  - rewrite pool_subscribe; specialize (Ha e st); simpl in Ha; lia.
  - rewrite pool_unsubscribe; specialize (Ha e st); simpl in Ha; lia.
  - destruct (evict_loop_facts (now e) (pool st) st) as (_ & _ & H & _).
    unfold evict; lia.
  - pose proof (size_acquire id e st) as Hi; simpl in Hi; lia.
  - simpl; lia.
  - unfold listening; destruct (listeners _); [|lia].
    destruct (onClientError_facts client error e st) as (_ & _ & _ & Hg & Hk).
    pose proof (length_delete (pool st) (name (deref st client))) as Hd.
    assert (Hle : JsMap.size (JsMap.delete (pool st) (name (deref st client)))
                  <= JsMap.size (pool st)).
    { unfold JsMap.size.
      destruct (JsMap.has (pool st) (name (deref st client))) eqn:E.
      - apply length_delete_present in E; lia.
      - rewrite delete_absent by auto; lia. }
    destruct (Z.lt_ge_cases
                (JsMap.size (JsMap.delete (pool st) (name (deref st client))))
                (minPool st)) as [G|G].
    + destruct (Hg G) as [_ H]; lia.
    + destruct (Hk G) as [-> _]; lia.
  - unfold listening; destruct (listeners _); simpl; lia.
  - unfold listening; destruct (listeners _); simpl; lia.
  - unfold listening; destruct (listeners _); simpl; lia.
  - unfold listening; destruct (listeners _); simpl; lia.
  - unfold onPubsubMessage; destruct (last message JUndefined); simpl; lia.
Qed.

(** X20.  The bound the pool does keep: in every reachable state the
    configuration is the one given at construction, and the pool holds at
    most [max(maxPool, 2 * minPool - 1)] clients (none when that is
    negative). *)
Theorem pool_size_bound (a85 : Codec) (o : Options) (fr : nat -> Fresh)
    (st : ManagedRedisCluster) :
  reachable a85 any_op o fr st ->
  (minPool st, maxPool st, poolTTL st)
  = (default 1 (o_minPool o), default 10 (o_maxPool o),
     default 600000 (o_ttl o))
  /\ JsMap.size (pool st)
     <= pool_bound (default 1 (o_minPool o)) (default 10 (o_maxPool o)).
Proof.
  unfold pool_bound; induction 1 as [|st x _ [IHc IHs] _].
  - unfold constructor; cbv zeta.
    set (n := Z.to_nat _); set (st0 := mkCluster _ _ _ _ _ _ _ _ _).
    pose proof (heap_poolUsed_create_loop n 0 fr st0) as Hc.
    injection Hc as Hmx Httl _ _.
    pose proof (length_pool_create_loop_le n 0 fr st0) as Hl.
    split; [now rewrite minPool_create_loop, Hmx, Httl|].
    unfold JsMap.size; simpl in Hl; unfold n in *; lia.
  - pose proof (config_exec a85 x st) as Hc.
    pose proof (size_exec a85 x st) as Hs.
    injection IHc as Em Ex Et; injection Hc as Em' Ex' Et'.
    split; [congruence|].
    rewrite Em, Ex in Hs; lia.
Qed.

Lemma pool_size_bound_witness :
  JsMap.size
    (pool (exec byte_text
             (OpClientError 0 (JError "ECONNRESET") (at_time 2000))
             (constructor (options 2 2 600000) (draw 1000))))
  <= 3.
Proof.
  apply (proj2 (pool_size_bound byte_text (options 2 2 600000) (draw 1000)
                  (exec byte_text
                     (OpClientError 0 (JError "ECONNRESET") (at_time 2000))
                     (constructor (options 2 2 600000) (draw 1000)))
                  ltac:(repeat constructor))).
Defined.

(** ** The facade *)

Lemma acquire_auto_result (e : Env) (st : ManagedRedisCluster) :
  acquire None e st = Throw AllBusy st
  \/ exists c st1, acquire None e st = Return (Some c) st1.
Proof.
  destruct (acquire None e st) as [c st1|err st'] eqn:E.
  - right; destruct (acquire_auto_in_pool _ _ _ _ E) as (x & -> & _); eauto.
  - left; apply acquire_throws in E; now destruct E as [-> ->].
Qed.

Lemma facade_follows_acquire (a85 : Codec) (command : list arg)
    (topic : list string) (e : Env) (st : ManagedRedisCluster) :
  (acquire None e st = Throw AllBusy st ->
   run a85 command e st = Throw AllBusy st
   /\ subscribe topic e st = Throw AllBusy st
   /\ unsubscribe topic e st = Throw AllBusy st)
  /\ (forall c st1, acquire None e st = Return (Some c) st1 ->
      (exists p st', run a85 command e st = Return p st')
      /\ (exists p st', subscribe topic e st = Return p st')
      /\ (exists p st', unsubscribe topic e st = Return p st')).
Proof.
  split.
  - intros Ha; unfold run, subscribe, unsubscribe; now rewrite Ha.
  - intros c st1 Ha; unfold run, subscribe, unsubscribe; rewrite Ha.
    repeat split; eauto.
    cbv zeta; destruct (_ <? _); eauto.
Qed.

(** X21.  [run], [subscribe] and [unsubscribe] throw in exactly one case,
    the one in which [acquire()] throws: the candidate list is empty and
    the pool has [maxPool] clients or more.  They then throw the error of
    [acquire] and leave the state untouched; in every other case each of
    them returns a promise. *)
Theorem facade_throws_exactly_when_exhausted (a85 : Codec)
    (command : list arg) (topic : list string) (e : Env)
    (st : ManagedRedisCluster) :
  (clientList e st = [] /\ maxPool st <= JsMap.size (pool st) ->
   run a85 command e st = Throw AllBusy st
   /\ subscribe topic e st = Throw AllBusy st
   /\ unsubscribe topic e st = Throw AllBusy st)
  /\ (~ (clientList e st = [] /\ maxPool st <= JsMap.size (pool st)) ->
      (exists p st', run a85 command e st = Return p st')
      /\ (exists p st', subscribe topic e st = Return p st')
      /\ (exists p st', unsubscribe topic e st = Return p st')).
Proof.
  destruct (facade_follows_acquire a85 command topic e st) as [Ht Hr].
  split; intros H.
  - apply Ht, acquire_throws_iff, H.
  - destruct (acquire_auto_result e st) as [Ha|(c & st1 & Ha)].
    + apply acquire_throws_iff in Ha; contradiction.
    + eapply Hr, Ha.
Qed.

Lemma facade_throws_exactly_when_exhausted_witness :
  run byte_text [Text "PING"] (at_time 2000)
      (constructor (options 0 0 600000) (draw 1000))
  = Throw AllBusy (constructor (options 0 0 600000) (draw 1000)).
Proof.
  apply (proj1 (facade_throws_exactly_when_exhausted byte_text [Text "PING"]
                  [] (at_time 2000)
                  (constructor (options 0 0 600000) (draw 1000)))).
  split; [reflexivity | vm_compute; discriminate].
Defined.

(** X22.  A manager built with [minPool >= 1], over a driver that puts no
    client object under [id], serves every call: in each of its states
    [run], [subscribe] and [unsubscribe] return a promise and never
    throw. *)
Theorem valid_configuration_always_serves (a85 : Codec) (o : Options)
    (fr : nat -> Fresh) (st : ManagedRedisCluster)
    (command : list arg) (topic : list string) (e : Env) :
  1 <= default 1 (o_minPool o) ->
  plain_draws fr ->
  reachable a85 plain_op o fr st ->
  (exists p st', run a85 command e st = Return p st')
  /\ (exists p st', subscribe topic e st = Return p st')
  /\ (exists p st', unsubscribe topic e st = Return p st').
Proof.
  intros Hm Hf Hr.
  destruct (valid_configuration_never_exhausted a85 o fr st e Hm Hf Hr)
    as (c & st1 & Ha).
  eapply facade_follows_acquire, Ha.
Qed.

Lemma valid_configuration_always_serves_witness :
  exists p st',
    run byte_text [Text "PING"] (at_time 3000)
        (exec byte_text (OpSubscribe ["a.*"] (at_time 2000))
              (constructor (options 1 1 600000) (draw 1000)))
    = Return p st'.
Proof.
  apply (valid_configuration_always_serves byte_text (options 1 1 600000)
           (draw 1000) _ [Text "PING"] [] (at_time 3000)).
  - simpl; lia.
  - intros i; reflexivity.
  - apply reach_exec; [apply reach_constructor | intros i; reflexivity].
Defined.

(** X23.  When [run] returns, it has stamped the client it acquired, a
    client of the pool, with the time of the call, and handed the driver
    one raw call with the encoded command; its promise settles as the raw
    call does, with the same value or the same reason. *)
Theorem run_passes_the_outcome_through (a85 : Codec) (command : list arg)
    (e : Env) (st st' : ManagedRedisCluster) (p : promise) :
  sound st ->
  run a85 command e st = Return p st' ->
  exists c k,
    p = Awaiting k
    /\ (forall outcome s, fst (k outcome s) = outcome)
    /\ In c (JsMap.values (pool st'))
    /\ lastUsedTime (deref st' c) = now e
    /\ log st' = log st ++ [RawCallAsync c (map (encode a85) command)].
Proof.
  intros Hs Hrun.
  destruct (run_returns _ _ _ _ _ _ Hrun) as (c & st1 & k & Ha & -> & -> & Hr & Hf).
  destruct (acquire_auto_in_pool _ _ _ _ Ha) as (c' & Hc & Hin).
  inversion Hc; subst c'.
  pose proof (sound_acquire None e st Hs) as Hs1; rewrite Ha in Hs1.
  pose proof (log_acquire None e st) as Hl; rewrite Ha in Hl; simpl in Hl.
  exists c, k; repeat apply conj; auto.
  - intros [v|r] s; [now rewrite Hf | now rewrite Hr].
  - unfold deref; simpl.
    rewrite nth_update_nth_same; [reflexivity|].
    now apply sound_value.
  - simpl; now rewrite Hl.
Qed.

Lemma run_passes_the_outcome_through_witness :
  exists c k,
    run byte_text [Text "GET"; Binary [x01; x02]] (at_time 2000)
        (constructor (options 1 10 600000) (draw 1000))
    = Return (Awaiting k)
             (state_of (run byte_text [Text "GET"; Binary [x01; x02]]
                            (at_time 2000)
                            (constructor (options 1 10 600000) (draw 1000))))
    /\ fst (k (Rejected (JError "ERR")) (constructor (options 1 10 600000) (draw 1000)))
       = Rejected (JError "ERR")
    /\ c = 0%nat.
Proof.
  destruct (run_passes_the_outcome_through byte_text
              [Text "GET"; Binary [x01; x02]] (at_time 2000)
              (constructor (options 1 10 600000) (draw 1000)) _ _
              (sound_constructor _ _) eq_refl)
    as (c & k & Hp & Hk & Hin & _).
  exists c, k; injection Hp as <-; repeat split; auto.
  vm_compute in Hin; intuition.
Defined.

(** X24.  A text element comes back from the router as it was sent
    exactly when it does not begin with the sentinel; one that does is
    taken for an encoded payload and comes back as the bytes its
    remainder decodes to. *)
Theorem text_element_round_trip (a85 : Codec) (s : string) :
  (String.prefix sentinel s = false ->
   decode a85 (encode a85 (Text s)) = JString s)
  /\ (forall r, s = (sentinel ++ r)%string ->
                decode a85 (encode a85 (Text s)) = JBuffer (parse a85 r))
  /\ (decode a85 (encode a85 (Text s)) = JString s ->
      String.prefix sentinel s = false).
Proof.
  unfold decode, encode; repeat split.
  - now intros ->.
  - intros r ->; now rewrite prefix_sentinel.
  - destruct (String.prefix sentinel s); [discriminate|auto].
Qed.

Lemma text_element_round_trip_witness :
  decode byte_text (encode byte_text (Text "hello")) = JString "hello".
Proof.
  apply (proj1 (text_element_round_trip byte_text "hello")); reflexivity.
Defined.

(** ** The router *)

Lemma includes_in (topic : list string) (x : string) :
  includes topic x = true <-> In x topic.
Proof.
  unfold includes; rewrite existsb_exists; split.
  - intros (y & Hy & E); apply String.eqb_eq in E; now subst.
  - intros H; exists x; split; auto; apply String.eqb_refl.
Qed.

(** X25.  When [unsubscribe] returns, every copy of every topic it was
    given is gone from the topic list, the other topics are all there, in
    their order, and one PUNSUBSCRIBE call with the topics given is with
    the driver; topics that were never subscribed change nothing. *)
Theorem unsubscribe_removes_every_copy (topic : list string) (e : Env)
    (st st' : ManagedRedisCluster) (p : promise) :
  unsubscribe topic e st = Return p st' ->
  PSTopics st' = filter (fun x => negb (includes topic x)) (PSTopics st)
  /\ (forall x, In x (PSTopics st')
                <-> In x (PSTopics st) /\ ~ In x topic)
  /\ ((forall x, In x topic -> ~ In x (PSTopics st)) ->
      PSTopics st' = PSTopics st)
  /\ exists c, log st' = log st ++ [RawCallAsync c ("PUNSUBSCRIBE" :: topic)].
Proof.
  intros H.
  destruct (unsubscribe_returns _ _ _ _ _ H)
    as (c & st1 & k & Ha & _ & Ht & _).
  repeat apply conj; auto.
  - intros x; rewrite Ht, filter_In, negb_true_iff.
    split; intros [Hx Hi]; split; auto.
    + intros Hin; apply includes_in in Hin; congruence.
    + destruct (includes topic x) eqn:E; auto.
      apply includes_in in E; contradiction.
  - intros Hnone; rewrite Ht.
    apply forallb_filter_id, forallb_forall; intros x Hx.
    apply negb_true_iff.
    destruct (includes topic x) eqn:E; auto.
    apply includes_in in E; exfalso; eapply Hnone; eauto.
  - exists c.
    pose proof (log_acquire None e st) as Hl; rewrite Ha in Hl; simpl in Hl.
    revert H; unfold unsubscribe; rewrite Ha; cbv zeta.
    destruct (_ <? _); intros [= _ <-]; simpl; now rewrite Hl.
Qed.

Lemma unsubscribe_removes_every_copy_witness :
  let st := exec byte_text (OpSubscribe ["a.*"; "b.*"] (at_time 2100))
              (exec byte_text (OpSubscribe ["a.*"] (at_time 2000))
                    (constructor (options 1 10 600000) (draw 1000))) in
  PSTopics st = ["a.*"; "a.*"; "b.*"]
  /\ PSTopics (state_of (unsubscribe ["a.*"] (at_time 3000) st)) = ["b.*"].
Proof.
  intros st; split; [reflexivity|].
  destruct (unsubscribe ["a.*"] (at_time 3000) st) as [p st'|err st'] eqn:E;
    [|vm_compute in E; discriminate E].
  cbn [state_of].
  rewrite (proj1 (unsubscribe_removes_every_copy _ _ _ _ _ E)).
  reflexivity.
Defined.

(** ** Identifiers *)

Lemma no_dash_uint (d : uint) : no_dash (NilEmpty.string_of_uint d) = true.
Proof. induction d; simpl; auto. Qed.

Lemma no_dash_string_of_Z (z : Z) : 0 <= z -> no_dash (string_of_Z z) = true.
Proof.
  intros H; unfold string_of_Z; destruct z as [|p|p]; [reflexivity| |lia].
  simpl; unfold NilZero.string_of_uint.
  destruct (Pos.to_uint p); auto using no_dash_uint; apply (no_dash_uint (_ _)).
Qed.

Lemma string_of_Z_inj (z z' : Z) : string_of_Z z = string_of_Z z' -> z = z'.
Proof.
  unfold string_of_Z; intros H.
  assert (Hn : forall x, Z.to_int x <> Pos Nil /\ Z.to_int x <> Neg Nil).
  { intros [|p|p]; simpl; split; try discriminate;
      intros [= E]; now apply Unsigned.to_uint_nonnil in E. }
  apply (f_equal NilZero.int_of_string) in H.
  rewrite !NilZero.isi in H by apply Hn.
  injection H as H; apply (f_equal Z.of_int) in H.
  now rewrite !DecimalZ.of_to in H.
Qed.

Lemma split_at_dash (a a' x x' : string) :
  no_dash a = true -> no_dash a' = true ->
  (a ++ String "-" x)%string = (a' ++ String "-" x')%string ->
  a = a' /\ x = x'.
Proof.
  revert a'; induction a as [|c a IH]; intros [|c' a']; simpl.
  - intros _ _ [= ->]; auto.
  - intros _ H [= <- _]; discriminate.
  - intros H _ [= -> _]; discriminate.
  - intros H H' [= -> E].
    apply andb_prop in H, H'.
    destruct (IH a' (proj2 H) (proj2 H') E) as [-> ->]; auto.
Qed.

(** X26.  The identifiers [create] makes from a process id and a clock
    reading that are not negative are the same only when the process id,
    the clock reading and the random draw are all the same. *)
Theorem uniqueID_injective (f f' : Fresh) :
  0 <= f_pid f -> 0 <= f_idtime f ->
  0 <= f_pid f' -> 0 <= f_idtime f' ->
  (uniqueID f = uniqueID f'
   <-> (f_pid f, f_idtime f, f_random f)
       = (f_pid f', f_idtime f', f_random f')).
Proof.
  intros Hp Ht Hp' Ht'; unfold uniqueID; split.
  - intros E.
    apply split_at_dash in E; auto using no_dash_string_of_Z.
    destruct E as [Ea E].
    apply split_at_dash in E; auto using no_dash_string_of_Z.
    destruct E as [Eb Ec].
    apply string_of_Z_inj in Ea, Eb, Ec; congruence.
  - now intros [= -> -> ->].
Qed.

Lemma uniqueID_injective_witness :
  uniqueID (draw 1000 0) <> uniqueID (draw 1000 1).
Proof.
  intros E.
  apply (proj1 (uniqueID_injective (draw 1000 0) (draw 1000 1)
                  ltac:(simpl; lia) ltac:(simpl; lia)
                  ltac:(simpl; lia) ltac:(simpl; lia))) in E.
  discriminate E.
Defined.
